(** * A shallow embedding of the C hash map (map.h / map.c)

    The table is a fixed array of bucket heads; every head is the first
    [MapNode] of a singly linked chain whose further nodes are
    individually heap allocated.  Keys and values are raw byte blocks
    copied with [memcpy]; hashing, comparison and disposal go through the
    function pointers of a [MapTypeData] descriptor.

    The embedding follows the current revision of the C file (the second
    of the two revisions of the source text).  Memory is an ownership
    tree: a pointer field is [Null], [Live] (an address together with the
    bytes readable there) or [Freed] (a dangling address).  Behaviour that
    C leaves undefined (reading through a null or dangling pointer, a
    zero divisor, freeing a block twice) is an explicit [Fault]. *)

From Stdlib Require Import ZArith Lia Bool.
From stdpp Require Import base list.

Local Open Scope Z_scope.

(** ** Machine integers and raw memory *)

Definition size_max : Z := 2 ^ 64.

(** Arithmetic on [size_t] wraps around. *)
Definition wrap (x : Z) : Z := x mod size_max.

Definition byte := Z.
Definition addr := Z.

Inductive ptr : Type :=
| Null
| Live (a : addr) (data : list byte)
| Freed (a : addr).

Definition is_null (p : ptr) : bool :=
  match p with Null => true | _ => false end.

(** The numeric value of a pointer, as used by pointer comparison. *)
Definition addr_of (p : ptr) : addr :=
  match p with Null => 0 | Live a _ => a | Freed a => a end.

Inductive fault : Type :=
| NullDeref | UseAfterFree | DoubleFree | DivByZero | OutOfBounds.

Inductive res (A : Type) : Type :=
| Ok (a : A)
| Fault (f : fault).
Arguments Ok {A} a.
Arguments Fault {A} f.

(** Little-endian value of a byte string. *)
Fixpoint le_word (bs : list byte) : Z :=
  match bs with
  | [] => 0
  | b :: bs' => b mod 256 + 256 * le_word bs'
  end.

Definition word_size : nat := 8.

(** Reading the first machine word behind a pointer: [*(size_t * )p]. *)
Definition deref_word (p : ptr) : res Z :=
  match p with
  | Null => Fault NullDeref
  | Freed _ => Fault UseAfterFree
  | Live _ d =>
      if (List.length d <? word_size)%nat then Fault OutOfBounds
      else Ok (le_word (take word_size d))
  end.

(** ** The type descriptor *)

(** Disposers are opaque calls to the outside; the table only records
    which one it called and on what. *)
Inductive disposer : Type :=
| map_default_free
| map_deref_free
| user_free (id : nat).

Record MapTypeData : Type := mkType {
  key_size : Z;
  value_size : Z;
  key_hash : option (ptr -> res Z);
  key_cmp : option (ptr -> ptr -> res Z);
  key_free : option disposer;
  value_free : option disposer
}.

Definition map_default_hash (k : ptr) : res Z := deref_word k.

Definition map_default_cmp (key1 key2 : ptr) : res Z :=
  if addr_of key1 <? addr_of key2 then Ok (-1)
  else if addr_of key1 >? addr_of key2 then Ok 1
  else Ok 0.

(** ** Nodes and tables *)

#[warnings="-register-all"]
Inductive MapNode : Type :=
  mkNode { key : ptr; value : ptr; next : option MapNode }.

Record Map : Type := mkMap {
  type : MapTypeData;
  length : Z;
  buckets : list MapNode
}.

(** The C struct stores the extent of the bucket array next to it; here it
    is the length of the list. *)
Definition buckets_count (map : Map) : Z := Z.of_nat (List.length (buckets map)).

(** A zeroed node, as [calloc] produces it. *)
Definition zero_node : MapNode := mkNode Null Null None.

(** ** The world outside the table *)

Inductive event : Type :=
| CallKeyFree (f : disposer) (p : ptr)
| CallValueFree (f : disposer) (p : ptr)
| CallMemcpy (dst src : ptr) (n : Z)
| CallFree (p : ptr)
| CallFreeNode
| CallFreeBuckets
| CallFreeMap.

(** [fresh] is the next address the allocator hands out, [sched] the
    outcome of the coming allocations ([false] is a failed one; past the
    end of the list every allocation succeeds), [trace] the calls made so
    far, oldest first. *)
Record world : Type := mkWorld {
  fresh : addr;
  sched : list bool;
  trace : list event
}.

Definition M (A : Type) : Type := world -> res (A * world).

Definition ret {A} (a : A) : M A := fun w => Ok (a, w).

Definition bind {A B} (m : M A) (f : A -> M B) : M B :=
  fun w => match m w with
           | Ok (a, w') => f a w'
           | Fault e => Fault e
           end.

Definition lift {A} (r : res A) : M A :=
  fun w => match r with Ok a => Ok (a, w) | Fault e => Fault e end.

Definition crash {A} (e : fault) : M A := fun _ => Fault e.

Notation "x <~ m ;; k" := (bind m (fun x => k))
  (at level 100, m at next level, right associativity).
Notation "m ;;; k" := (bind m (fun _ => k))
  (at level 100, right associativity).

Definition emit (e : event) : M unit :=
  fun w => Ok (tt, mkWorld (fresh w) (sched w) (trace w ++ [e])).

(** [malloc] and [calloc]: [None] is the null result. *)
Definition malloc : M (option addr) :=
  fun w =>
    match sched w with
    | false :: s => Ok (None, mkWorld (fresh w) s (trace w))
    | true :: s => Ok (Some (fresh w), mkWorld (fresh w + 1) s (trace w))
    | [] => Ok (Some (fresh w), mkWorld (fresh w + 1) [] (trace w))
    end.

(** [free(p)]: a no-op on null, undefined on a block already freed. *)
Definition free (p : ptr) : M unit :=
  match p with
  | Freed _ => crash DoubleFree
  | _ => emit (CallFree p)
  end.

(** [memcpy(dst, src, n)] returns the new contents of [dst]. *)
Definition memcpy (dst src : ptr) (n : Z) : M ptr :=
  match dst, src with
  | Null, _ | _, Null => crash NullDeref
  | Freed _, _ | _, Freed _ => crash UseAfterFree
  | Live a _, Live _ d =>
      if Z.of_nat (List.length d) <? n then crash OutOfBounds
      else emit (CallMemcpy dst src n) ;;; ret (Live a (take (Z.to_nat n) d))
  end.

(** Calls through the descriptor; a null function pointer cannot be called. *)
Definition call_hash (t : MapTypeData) (k : ptr) : res Z :=
  match key_hash t with
  | Some h => match h k with Ok x => Ok (wrap x) | Fault e => Fault e end
  | None => Fault NullDeref
  end.

Definition call_cmp (t : MapTypeData) (a b : ptr) : res Z :=
  match key_cmp t with
  | Some c => c a b
  | None => Fault NullDeref
  end.

Definition call_key_free (t : MapTypeData) (p : ptr) : M unit :=
  match key_free t with
  | Some f => emit (CallKeyFree f p)
  | None => crash NullDeref
  end.

Definition call_value_free (t : MapTypeData) (p : ptr) : M unit :=
  match value_free t with
  | Some f => emit (CallValueFree f p)
  | None => crash NullDeref
  end.

(** [hash % map->buckets_count] *)
Definition bucket_index (map : Map) (hash : Z) : res Z :=
  if buckets_count map =? 0 then Fault DivByZero
  else Ok (hash mod buckets_count map).

(** ** map_new *)

Definition or_default {A} (o : option A) (d : A) : option A :=
  match o with Some x => Some x | None => Some d end.

Definition map_new (t : MapTypeData) (count : Z) : M (option Map) :=
  m <~ malloc ;;
  match m with
  | None => ret None
  | Some _ =>
      let t' := mkType (key_size t) (value_size t)
                       (or_default (key_hash t) map_default_hash)
                       (or_default (key_cmp t) map_default_cmp)
                       (or_default (key_free t) map_default_free)
                       (or_default (value_free t) map_default_free) in
      b <~ malloc ;;
      match b with
      | None => emit CallFreeMap ;;; ret None
      | Some _ => ret (Some (mkMap t' 0 (replicate (Z.to_nat count) zero_node)))
      end
  end.

(** ** map_add *)

(** The branch for an empty head ("first time accessing this bucket").
    The result is the return code and the head as the call leaves it. *)
Definition fill_head (t : MapTypeData) (node : MapNode) (k v : ptr)
  : M (Z * MapNode) :=
  ka <~ malloc ;;
  match ka with
  | None => ret (-1, mkNode Null (value node) (next node))
  | Some a =>
      vb <~ malloc ;;
      match vb with
      | None =>
          free (Live a []) ;;;
          ret (-1, mkNode (Freed a) Null (next node))
      | Some b =>
          kp <~ memcpy (Live a []) k (key_size t) ;;
          vp <~ memcpy (Live b []) v (value_size t) ;;
          ret (0, mkNode kp vp (next node))
      end
  end.

(** Allocation of a new overflow node ("Add node."); [None] when one of
    the three allocations fails. *)
Definition new_overflow (t : MapTypeData) (k v : ptr) : M (option MapNode) :=
  n <~ malloc ;;
  match n with
  | None => ret None
  | Some _ =>
      ka <~ malloc ;;
      match ka with
      | None => emit CallFreeNode ;;; ret None
      | Some a =>
          vb <~ malloc ;;
          match vb with
          | None => free (Live a []) ;;; emit CallFreeNode ;;; ret None
          | Some b =>
              kp <~ memcpy (Live a []) k (key_size t) ;;
              vp <~ memcpy (Live b []) v (value_size t) ;;
              ret (Some (mkNode kp vp None))
          end
      end
  end.

(** The loop [while (node->next != NULL)] followed by the append. *)
Fixpoint add_walk (t : MapTypeData) (node : MapNode) (k v : ptr)
  : M (Z * MapNode) :=
  match next node with
  | Some nx =>
      c <~ lift (call_cmp t (key node) k) ;;
      if c =? 0 then
        call_value_free t (value node) ;;;
        vp <~ memcpy (value node) v (value_size t) ;;
        ret (1, mkNode (key node) vp (next node))
      else
        r <~ add_walk t nx k v ;;
        ret (fst r, mkNode (key node) (value node) (Some (snd r)))
  | None =>
      nn <~ new_overflow t k v ;;
      match nn with
      | None => ret (-1, node)
      | Some n' => ret (0, mkNode (key node) (value node) (Some n'))
      end
  end.

(** Writing a chain back; [map->length++] runs exactly on the paths that
    return 0. *)
Definition store_add (map : Map) (index : Z) (r : Z * MapNode) : Z * Map :=
  (fst r,
   mkMap (type map)
         (if fst r =? 0 then wrap (length map + 1) else length map)
         (<[Z.to_nat index := snd r]> (buckets map))).

Definition map_add (map : Map) (k v : ptr) : M (Z * Map) :=
  hash <~ lift (call_hash (type map) k) ;;
  index <~ lift (bucket_index map hash) ;;
  match buckets map !! Z.to_nat index with
  | None => crash OutOfBounds
  | Some node =>
      if is_null (key node) && is_null (value node) then
        r <~ fill_head (type map) node k v ;;
        ret (store_add map index r)
      else
        r <~ add_walk (type map) node k v ;;
        ret (store_add map index r)
  end.

(** ** map_get *)

Fixpoint get_walk (t : MapTypeData) (node : MapNode) (k : ptr) : res ptr :=
  if is_null (key node) && is_null (value node) then Ok Null
  else
    match call_cmp t (key node) k with
    | Fault e => Fault e
    | Ok cmp =>
        if cmp =? 0 then Ok (value node)
        else match next node with
             | Some nx => get_walk t nx k
             | None => Ok Null
             end
    end.

Definition map_get (map : Map) (k : ptr) : res ptr :=
  match call_hash (type map) k with
  | Fault e => Fault e
  | Ok hash =>
      match bucket_index map hash with
      | Fault e => Fault e
      | Ok index =>
          match buckets map !! Z.to_nat index with
          | None => Fault OutOfBounds
          | Some node => get_walk (type map) node k
          end
      end
  end.

(** ** map_remove *)

(** [node->key && (key_cmp(node->key, key) == 0)] *)
Definition matches (t : MapTypeData) (node : MapNode) (k : ptr) : res bool :=
  if is_null (key node) then Ok false
  else match call_cmp t (key node) k with
       | Ok c => Ok (c =? 0)
       | Fault e => Fault e
       end.

(** The four calls made on the matched node. *)
Definition dispose_entry (t : MapTypeData) (node : MapNode) : M unit :=
  call_key_free t (key node) ;;;
  call_value_free t (value node) ;;;
  free (key node) ;;;
  free (value node).

(** The loop once [prev] is set: [node] is an overflow node.  The result
    says whether a node was removed and gives the new [prev->next]. *)
Fixpoint remove_walk (t : MapTypeData) (node : MapNode) (k : ptr)
  : M (bool * option MapNode) :=
  hit <~ lift (matches t node k) ;;
  if (hit : bool) then
    dispose_entry t node ;;;
    emit CallFreeNode ;;;
    ret (true, next node)
  else
    match next node with
    | None => ret (false, Some node)
    | Some nx =>
        r <~ remove_walk t nx k ;;
        ret (fst r, Some (mkNode (key node) (value node) (snd r)))
    end.

(** The first iteration ([prev == NULL]): [node] is the bucket head. *)
Definition remove_head (t : MapTypeData) (node : MapNode) (k : ptr)
  : M (bool * MapNode) :=
  hit <~ lift (matches t node k) ;;
  if (hit : bool) then
    dispose_entry t node ;;;
    match next node with
    | Some nx => emit CallFreeNode ;;; ret (true, nx)
    | None => ret (true, mkNode Null Null None)
    end
  else
    match next node with
    | None => ret (false, node)
    | Some nx =>
        r <~ remove_walk t nx k ;;
        ret (fst r, mkNode (key node) (value node) (snd r))
    end.

Definition map_remove (map : Map) (k : ptr) : M (Z * Map) :=
  hash <~ lift (call_hash (type map) k) ;;
  index <~ lift (bucket_index map hash) ;;
  match buckets map !! Z.to_nat index with
  | None => crash OutOfBounds
  | Some node =>
      r <~ remove_head (type map) node k ;;
      if fst r then
        ret (0, mkMap (type map) (wrap (length map - 1))
                      (<[Z.to_nat index := snd r]> (buckets map)))
      else ret (-1, map)
  end.

(** ** map_count_collisions *)

(** The inner loop [while (node->next != NULL)]. *)
Fixpoint count_chain (node : MapNode) (collisions : Z) : Z :=
  match next node with
  | None => collisions
  | Some nx => count_chain nx (wrap (collisions + 1))
  end.

Definition count_bucket (collisions : Z) (head : MapNode) : Z :=
  match next head with
  | None => collisions
  | Some node => count_chain node (wrap (collisions + 1))
  end.

Definition map_count_collisions (map : Map) : Z :=
  fold_left count_bucket (buckets map) 0.

(** ** map_free *)

(** The loop over one chain; [c] tells the head (not freed on its own)
    from the overflow nodes.  [map->length--] is not observable, the
    struct is released right after. *)
Fixpoint free_chain (t : MapTypeData) (node : MapNode) (c : Z) : M unit :=
  match key_free t with
  | Some f => emit (CallKeyFree f (key node))
  | None => ret tt
  end ;;;
  match value_free t with
  | Some f => emit (CallValueFree f (value node))
  | None => ret tt
  end ;;;
  free (key node) ;;;
  free (value node) ;;;
  (if c >? 0 then emit CallFreeNode else ret tt) ;;;
  match next node with
  | Some nx => free_chain t nx (c + 1)
  | None => ret tt
  end.

Fixpoint for_buckets {A} (body : A -> MapNode -> M A) (bs : list MapNode) (a : A)
  : M A :=
  match bs with
  | [] => ret a
  | b :: bs' => a' <~ body a b ;; for_buckets body bs' a'
  end.

Definition map_free (map : Map) : M unit :=
  for_buckets (fun _ b => free_chain (type map) b 0) (buckets map) tt ;;;
  emit CallFreeBuckets ;;;
  emit CallFreeMap.

(** ** map_optimize *)

(** [(size_t)((double)map->length / 0.75)], computed exactly.  The
    double-precision quotient truncates to this integer for every length
    below 2^50. *)
Definition new_buckets_count (map : Map) : Z := 4 * length map / 3.

(** The inner loop: every node of one chain, the head included, is handed
    to [map_add]; its return code is dropped. *)
Fixpoint readd_chain (new_map : option Map) (node : MapNode) : M (option Map) :=
  match new_map with
  | None => crash NullDeref
  | Some nm =>
      r <~ map_add nm (key node) (value node) ;;
      match next node with
      | Some nx => readd_chain (Some (snd r)) nx
      | None => ret (Some (snd r))
      end
  end.

Definition map_optimize (map : Map) : M (option Map) :=
  new_map <~ map_new (type map) (new_buckets_count map) ;;
  new_map' <~ for_buckets readd_chain (buckets map) new_map ;;
  let t := type map in
  let old := mkMap (mkType (key_size t) (value_size t) (key_hash t) (key_cmp t)
                           None None)
                   (length map) (buckets map) in
  map_free old ;;;
  ret new_map'.

(** ** The integer strategy of the test programs *)

(** [*(int * )p]: four bytes, little endian, two's complement. *)
Definition deref_int (p : ptr) : res Z :=
  match p with
  | Null => Fault NullDeref
  | Freed _ => Fault UseAfterFree
  | Live _ d =>
      if (List.length d <? 4)%nat then Fault OutOfBounds
      else let u := le_word (take 4 d) in
           Ok (if u <? 2 ^ 31 then u else u - 2 ^ 32)
  end.

Definition int_hash (k : ptr) : res Z := deref_int k.

Definition int_cmp (a b : ptr) : res Z :=
  match deref_int a, deref_int b with
  | Ok x, Ok y => Ok (x - y)
  | Fault e, _ => Fault e
  | _, Fault e => Fault e
  end.

(** [MAP_TYPE(int, int, int_hash, int_cmp, NULL, NULL)] *)
Definition int_type : MapTypeData :=
  mkType 4 4 (Some int_hash) (Some int_cmp) None None.

(** A caller's [int] variable at address [a] holding [n]. *)
Definition int_at (a : addr) (n : Z) : ptr :=
  Live a [n mod 256; n / 256 mod 256; n / 65536 mod 256; n / 16777216 mod 256].

(** A world in which every allocation succeeds. *)
Definition world0 : world := mkWorld 1000 [] [].

(** [int_type] after [map_new] has put the default disposers in place of
    the two null function pointers. *)
Definition int_type' : MapTypeData :=
  mkType 4 4 (Some int_hash) (Some int_cmp)
         (Some map_default_free) (Some map_default_free).

(** ** Chains as lists *)

(** The nodes linked behind [node], in link order. *)
Fixpoint overflow_nodes (node : MapNode) : list MapNode :=
  match next node with
  | None => []
  | Some nx => nx :: overflow_nodes nx
  end.

Definition chain_nodes (head : MapNode) : list MapNode :=
  head :: overflow_nodes head.

(** Number of nodes linked behind the head. *)
Definition overflow_count (head : MapNode) : Z :=
  Z.of_nat (List.length (overflow_nodes head)).

(** Chains are walked from the head: induction on a node goes through the
    node linked behind it. *)
Fixpoint MapNode_chain_ind (P : MapNode -> Prop)
  (Hlast : forall k v, P (mkNode k v None))
  (Hlink : forall k v nx, P nx -> P (mkNode k v (Some nx)))
  (node : MapNode) : P node :=
  match node with
  | mkNode k v None => Hlast k v
  | mkNode k v (Some nx) => Hlink k v nx (MapNode_chain_ind P Hlast Hlink nx)
  end.

(** The test the code uses for a bucket never written to:
    [node->key == NULL && node->value == NULL]. *)
Definition is_empty (node : MapNode) : bool :=
  is_null (key node) && is_null (value node).

(** Number of entries a bucket holds: none for an empty head, otherwise
    the head and every node linked behind it. *)
Definition chain_length (head : MapNode) : Z :=
  if is_empty head then 0 else Z.of_nat (List.length (chain_nodes head)).

(** An empty head heads no chain. *)
Definition head_ok (head : MapNode) : Prop :=
  is_empty head = true -> next head = None.

Definition heads_ok (map : Map) : Prop :=
  Forall head_ok (buckets map).

(** Every node behind the head carries a key. *)
Definition overflow_ok (head : MapNode) : Prop :=
  Forall (fun n => is_null (key n) = false) (overflow_nodes head).

(** What every bucket of a reachable table satisfies. *)
Definition chain_inv (head : MapNode) : Prop :=
  head_ok head /\ overflow_ok head.

(** Sum of a list of integers. *)
Definition sum_Z (l : list Z) : Z := fold_right Z.add 0 l.

(** ** Tables the interface can produce *)

(** Every table a caller can hold after calls of [map_new], [map_add] and
    [map_remove] that returned, whatever the allocator did and whatever
    the calls returned. *)
Inductive reachable : Map -> Prop :=
| reach_new t count w m w' :
    map_new t count w = Ok (Some m, w') -> reachable m
| reach_add m k v w r m' w' :
    reachable m -> map_add m k v w = Ok ((r, m'), w') -> reachable m'
| reach_remove m k w r m' w' :
    reachable m -> map_remove m k w = Ok ((r, m'), w') -> reachable m'.

(** ** Runs of the test programs *)

(** What a caller can observe of a table: its length field, its chains
    and the answer of a lookup. *)
Record observation : Type := mkObs {
  codes : list Z;
  obs_length : Z;
  obs_buckets : list MapNode;
  obs_get : res ptr
}.

(** [map_new(type, count)] of a caller that checks the result. *)
Definition new_checked (t : MapTypeData) (count : Z) : M Map :=
  r <~ map_new t count ;;
  match r with
  | Some m => ret m
  | None => crash NullDeref
  end.

(** Insert the same key twice into a fresh table of [count] buckets. *)
Definition insert_twice (count : Z) (k v1 v2 : ptr) : M observation :=
  m0 <~ new_checked int_type count ;;
  a <~ map_add m0 k v1 ;;
  b <~ map_add (snd a) k v2 ;;
  ret (mkObs [fst a; fst b] (length (snd b)) (buckets (snd b))
             (map_get (snd b) k)).

(** One insert into a fresh table of [count] buckets. *)
Definition insert_once (count : Z) (k v : ptr) : M observation :=
  m0 <~ new_checked int_type count ;;
  a <~ map_add m0 k v ;;
  ret (mkObs [fst a] (length (snd a)) (buckets (snd a)) (map_get (snd a) k)).

(** One insert into a fresh table of [count] buckets, then [map_optimize]. *)
Definition insert_then_optimize (count : Z) (k v : ptr) : M (option Map) :=
  m0 <~ new_checked int_type count ;;
  a <~ map_add m0 k v ;;
  map_optimize (snd a).

(** [map_optimize] on a fresh table of [count] buckets. *)
Definition optimize_fresh (t : MapTypeData) (count : Z) : M (option Map) :=
  m0 <~ new_checked t count ;;
  map_optimize m0.

(** ** Sample tables *)

(** A table of two buckets: three entries in the first, none in the second. *)
Definition two_bucket_table : Map :=
  mkMap int_type' 3
        [mkNode (int_at 1002 0) (int_at 1003 10)
           (Some (mkNode (int_at 1005 2) (int_at 1006 12)
              (Some (mkNode (int_at 1008 4) (int_at 1009 14) None))));
         zero_node].

(** A table of one bucket whose chain holds the keys 7 and 8. *)
Definition chain_7_8 : Map :=
  mkMap int_type' 2
        [mkNode (int_at 1002 7) (int_at 1003 70)
                (Some (mkNode (int_at 1005 8) (int_at 1006 80) None))].

(** ** Buckets as association lists *)

(** The entries of a bucket, in chain order: the key and value pointers of
    its nodes, or nothing when the head was never written to. *)
Definition entries (head : MapNode) : list (ptr * ptr) :=
  if is_empty head then []
  else map (fun n => (key n, value n)) (chain_nodes head).

(** The value of the first entry whose key the comparison function finds
    equal to [k]; the null pointer when there is none. *)
Fixpoint find_entry (t : MapTypeData) (k : ptr) (l : list (ptr * ptr)) : res ptr :=
  match l with
  | [] => Ok Null
  | (ek, ev) :: l' =>
      match call_cmp t ek k with
      | Fault e => Fault e
      | Ok c => if c =? 0 then Ok ev else find_entry t k l'
      end
  end.

(** The comparison function was called on the key and did not find it
    equal to [k]. *)
Definition differs (t : MapTypeData) (k : ptr) (e : ptr * ptr) : Prop :=
  exists c, call_cmp t (fst e) k = Ok c /\ c <> 0.

(** Events that give a block back to the allocator. *)
Definition is_release (e : event) : Prop :=
  match e with
  | CallFree (Live _ _) | CallFreeNode | CallFreeBuckets | CallFreeMap => True
  | _ => False
  end.

(** A pointer to a block that is still allocated. *)
Definition is_live (p : ptr) : bool :=
  match p with Live _ _ => true | _ => false end.

(** The key and value pointers of every node of a chain, head included. *)
Definition pairs (node : MapNode) : list (ptr * ptr) :=
  map (fun n => (key n, value n)) (chain_nodes node).

(** The block [memcpy] leaves at address [a] after copying [n] bytes from [src]. *)
Definition copy_of (a : addr) (src : ptr) (n : Z) : ptr :=
  match src with
  | Live _ d => Live a (take (Z.to_nat n) d)
  | _ => Null
  end.

(** [map_remove] passes over an entry: its key is null, or the comparison
    function was called on it and did not find it equal to [k]. *)
Definition misses (t : MapTypeData) (k : ptr) (e : ptr * ptr) : Prop :=
  is_null (fst e) = true \/ differs t k e.

(** The entries behind an optional node. *)
Definition opairs (o : option MapNode) : list (ptr * ptr) :=
  match o with Some n => pairs n | None => [] end.

(** A computation that never turns an allocator that cannot fail into one
    that can: started with an empty schedule it ends with an empty one. *)
Definition steady {A} (c : M A) : Prop :=
  forall w a w', sched w = [] -> c w = Ok (a, w') -> sched w' = [].

(** Number of entries in a list that own a key block. *)
Definition live_pairs (l : list (ptr * ptr)) : Z :=
  sum_Z (map (fun e => if is_live (fst e) then 1 else 0) l).

(** Number of entries of a bucket that own a key block. *)
Definition live_count (head : MapNode) : Z := live_pairs (entries head).

(** Number of entries of a table that own a key block. *)
Definition stored (m : Map) : Z := sum_Z (map live_count (buckets m)).

(** A pointer to a block that was already given back. *)
Definition dangling (p : ptr) : bool :=
  match p with Freed _ => true | _ => false end.

(** Neither pointer of the node dangles. *)
Definition clean (n : MapNode) : Prop :=
  dangling (key n) = false /\ dangling (value n) = false.

(** Number of overflow nodes released in a list of calls. *)
Definition node_frees (evs : list event) : Z :=
  sum_Z (map (fun e => match e with CallFreeNode => 1 | _ => 0 end) evs).

(** Number of [free] calls on key and value blocks in a list of calls. *)
Definition block_frees (evs : list event) : Z :=
  sum_Z (map (fun e => match e with CallFree _ => 1 | _ => 0 end) evs).

(** ** The string strategy *)

(** [const int p = 31] and [const int m = 1e9 + 9]. *)
Definition str_p : Z := 31.
Definition str_m : Z := 1000000009.

(** The loop of [map_default_hash_str] over the characters of the string
    the key points to ([str[0]], ..., [str[len - 1]], as the values of
    type [char]).  The arithmetic is that of [long long], where no
    operation of the loop overflows; [%] truncates toward zero. *)
Fixpoint hash_str_loop (str : list Z) (hash_value p_pow : Z) : Z :=
  match str with
  | [] => hash_value
  | c :: str' =>
      hash_str_loop str'
                    (Z.rem (hash_value + (c - 97 + 1) * p_pow) str_m)
                    (Z.rem (p_pow * str_p) str_m)
  end.

(** [map_default_hash_str], on the string read through [*(char ** )key];
    the [long long] result is converted to [size_t]. *)
Definition map_default_hash_str (str : list Z) : Z :=
  wrap (hash_str_loop str 0 1).

(** The polynomial [sum (str[i] - 'a' + 1) * 31^i]. *)
Fixpoint str_poly (str : list Z) : Z :=
  match str with
  | [] => 0
  | c :: str' => (c - 96) + str_p * str_poly str'
  end.

(** A caller's hash function that uses the address it is given and never
    reads through it, so it accepts the null pointer. *)
Definition addr_hash (k : ptr) : res Z := Ok (addr_of k).

(** A fresh table of one bucket whose hash function is [addr_hash]. *)
Definition addr_table : Map :=
  mkMap (mkType 4 4 (Some addr_hash) (Some int_cmp)
                (Some map_default_free) (Some map_default_free))
        0 [zero_node].

(** * Properties *)

(** ** Reasoning about runs *)

Lemma bind_Ok {A B} (m : M A) (f : A -> M B) (w : world) (r : B * world) :
  bind m f w = Ok r -> exists a w1, m w = Ok (a, w1) /\ f a w1 = Ok r.
Proof.
  unfold bind. destruct (m w) as [[a w1]|e]; [|discriminate].
  intros H. exists a, w1. split; [reflexivity|exact H].
Qed.

Lemma bind_run {A B} (m : M A) (f : A -> M B) (w w1 : world) (a : A) :
  m w = Ok (a, w1) -> bind m f w = f a w1.
Proof. unfold bind. intros ->. reflexivity. Qed.

Lemma lift_Ok {A} (r : res A) (w : world) (a : A) (w1 : world) :
  lift r w = Ok (a, w1) -> r = Ok a /\ w1 = w.
Proof. unfold lift. destruct r; intros H; inversion H; auto. Qed.

Lemma ret_Ok {A} (a b : A) (w w1 : world) :
  ret a w = Ok (b, w1) -> b = a /\ w1 = w.
Proof. unfold ret. intros H; inversion H; auto. Qed.

(** Splits a run of monadic steps that ended in [Ok]. *)
Ltac run_inv H :=
  repeat match type of H with
  | bind _ _ _ = Ok _ =>
      let a := fresh "a" in let w := fresh "w" in
      let H1 := fresh "Hstep" in
      apply bind_Ok in H; destruct H as (a & w & H1 & H)
  end.

(** ** The re-insertion loop of map_optimize *)

(** C1: after [map_optimize] every key of the old table is found in the
    replacement with an unchanged value.  The code hands every bucket
    head to [map_add], the never-used ones too: a table of two buckets
    that holds the single key 7 (in bucket 1) makes [map_optimize] call
    the hash function on the null key of bucket 0, and the call does not
    return a table at all. *)
Theorem map_optimize_rehashes_empty_head :
  insert_then_optimize 2 (int_at 1 7) (int_at 2 70) world0 = Fault NullDeref.
Proof. vm_compute. reflexivity. Qed.

(** ** The update path of map_add *)

(** C2: a second insert of the same key reports an update and replaces
    the value.  On a fresh table the key sits in the last (and only) node
    of its chain, the loop [while (node->next != NULL)] ends before
    comparing that node, and the second insert appends a duplicate: both
    calls return 0, the length is 2 and a lookup still gives the first
    value. *)
Theorem map_add_twice_appends_duplicate :
  exists w,
    insert_twice 1 (int_at 1 7) (int_at 2 70) (int_at 2 71) world0
    = Ok (mkObs [0; 0] 2
                [mkNode (int_at 1002 7) (int_at 1003 70)
                        (Some (mkNode (int_at 1005 7) (int_at 1006 71) None))]
                (Ok (int_at 1003 70)), w).
Proof. eexists. vm_compute. reflexivity. Qed.

(** C3: the length field counts the distinct keys stored.  After the two
    inserts of key 7 into a table of four buckets the length field is 2
    although both nodes of the chain hold the same key. *)
Theorem length_counts_duplicate_key :
  exists o w,
    insert_twice 4 (int_at 1 7) (int_at 2 70) (int_at 2 71) world0 = Ok (o, w)
    /\ obs_length o = 2
    /\ concat (map (fun b => map (fun n => deref_int (key n))
                                  (if is_empty b then [] else chain_nodes b))
                   (obs_buckets o))
       = [Ok 7; Ok 7].
Proof. eexists. eexists. split; [vm_compute; reflexivity|]. split; reflexivity. Qed.

(** ** Allocation failure in map_add *)

(** C6: a failed allocation leaves the table as it was.  When the key
    block of an empty bucket is allocated and the value block is not, the
    code frees the key block and returns -1 with [node->key] still
    pointing to it: the bucket is no longer empty and the next lookup in
    it reads freed memory. *)
Theorem map_add_failed_value_alloc_leaves_dangling_key :
  exists w,
    insert_once 1 (int_at 1 7) (int_at 2 70)
                (mkWorld 1000 [true; true; true; false] [])
    = Ok (mkObs [-1] 0 [mkNode (Freed 1002) Null None] (Fault UseAfterFree), w).
Proof. eexists. vm_compute. reflexivity. Qed.

(** ** The default strategy *)



(** ** map_count_collisions *)

Lemma wrap_small (x : Z) : 0 <= x < size_max -> wrap x = x.
Proof. intros H. unfold wrap. apply Z.mod_small. exact H. Qed.

Lemma wrap_range (x : Z) : 0 <= wrap x < size_max.
Proof. unfold wrap. apply Z.mod_pos_bound. reflexivity. Qed.

Lemma wrap_add_l (x y : Z) : wrap (wrap x + y) = wrap (x + y).
Proof. unfold wrap. apply Zplus_mod_idemp_l. Qed.

Lemma overflow_count_nonneg (head : MapNode) : 0 <= overflow_count head.
Proof. unfold overflow_count. lia. Qed.

Lemma count_chain_spec (node : MapNode) :
  forall c, 0 <= c < size_max ->
            count_chain node c = wrap (c + overflow_count node).
Proof.
  induction node as [k v|k v nx IH] using MapNode_chain_ind; intros c Hc.
  - unfold overflow_count. cbn. rewrite Z.add_0_r, wrap_small; auto.
  - cbn [count_chain next]. rewrite IH by apply wrap_range.
    rewrite wrap_add_l. f_equal. unfold overflow_count. cbn [overflow_nodes next].
    rewrite length_cons. lia.
Qed.

Lemma count_bucket_spec (head : MapNode) (c : Z) :
  0 <= c < size_max -> count_bucket c head = wrap (c + overflow_count head).
Proof.
  intros Hc. destruct head as [k v [nx|]]; unfold count_bucket; cbn [next].
  - rewrite count_chain_spec by apply wrap_range.
    rewrite wrap_add_l. f_equal. unfold overflow_count. cbn [overflow_nodes next].
    rewrite length_cons. lia.
  - unfold overflow_count. cbn. rewrite Z.add_0_r, wrap_small; auto.
Qed.

Lemma fold_count_bucket (bs : list MapNode) :
  forall c, 0 <= c < size_max ->
            fold_left count_bucket bs c
            = wrap (c + sum_Z (map overflow_count bs)).
Proof.
  induction bs as [|b bs IH]; intros c Hc; cbn [fold_left map sum_Z fold_right].
  - rewrite Z.add_0_r, wrap_small; auto.
  - rewrite count_bucket_spec by exact Hc. rewrite IH by apply wrap_range.
    rewrite wrap_add_l. f_equal. unfold sum_Z. lia.
Qed.

Lemma overflow_count_chain_length (head : MapNode) :
  head_ok head -> overflow_count head = Z.max 0 (chain_length head - 1).
Proof.
  intros Hok. unfold chain_length, overflow_count.
  destruct (is_empty head) eqn:E.
  - destruct head as [k v nx]. rewrite (Hok E : nx = None). reflexivity.
  - unfold chain_nodes. rewrite length_cons. lia.
Qed.

Lemma sum_overflow_chain_length (bs : list MapNode) :
  Forall head_ok bs ->
  sum_Z (map overflow_count bs)
  = sum_Z (map (fun b => Z.max 0 (chain_length b - 1)) bs).
Proof.
  induction 1 as [|b bs Hb _ IH]; [reflexivity|].
  cbn [map sum_Z fold_right]. unfold sum_Z in IH. rewrite <- IH.
  rewrite overflow_count_chain_length by exact Hb. reflexivity.
Qed.

Lemma sum_Z_zero (l : list Z) : (forall x, In x l -> x = 0) -> sum_Z l = 0.
Proof.
  induction l as [|x l IH]; intros H; [reflexivity|].
  cbn [sum_Z fold_right]. rewrite (H x) by (left; reflexivity).
  unfold sum_Z in IH. rewrite IH; [reflexivity|].
  intros y Hy. apply H. right. exact Hy.
Qed.

(** C7: in a table whose empty heads head no chain, and whose chains hold
    fewer than 2^64 entries in all, [map_count_collisions] is the sum over
    the buckets of max(0, chain length - 1); with at most one entry in
    every bucket it is zero. *)
Theorem map_count_collisions_sum (m : Map) :
  heads_ok m ->
  sum_Z (map (fun b => Z.max 0 (chain_length b - 1)) (buckets m)) < size_max ->
  map_count_collisions m
  = sum_Z (map (fun b => Z.max 0 (chain_length b - 1)) (buckets m))
  /\ ((forall b, In b (buckets m) -> chain_length b <= 1) ->
      map_count_collisions m = 0).
Proof.
  intros Hok Hlt. unfold map_count_collisions.
  rewrite fold_count_bucket by (unfold size_max; lia).
  rewrite sum_overflow_chain_length by exact Hok.
  assert (Hnn : 0 <= sum_Z (map (fun b => Z.max 0 (chain_length b - 1)) (buckets m))).
  { clear. induction (buckets m) as [|b bs IH]; cbn [map sum_Z fold_right]; [lia|].
    unfold sum_Z in IH. lia. }
  rewrite Z.add_0_l, wrap_small by lia. split; [reflexivity|].
  intros Hone. apply sum_Z_zero. intros x Hx.
  apply in_map_iff in Hx. destruct Hx as (b & <- & Hb).
  specialize (Hone b Hb).
  assert (0 <= chain_length b).
  { unfold chain_length. destruct (is_empty b); lia. }
  lia.
Qed.

Lemma map_count_collisions_sum_witness :
  map_count_collisions two_bucket_table = 2.
Proof.
  refine (eq_trans (proj1 (map_count_collisions_sum two_bucket_table _ _)) _).
  - repeat constructor; intros E; vm_compute in E; discriminate E.
  - vm_compute. reflexivity.
  - vm_compute. reflexivity.
Defined.

(** ** The shape of reachable tables *)

Lemma emit_Ok (e : event) (w : world) (u : unit) (w' : world) :
  emit e w = Ok (u, w') ->
  w' = mkWorld (fresh w) (sched w) (trace w ++ [e]).
Proof. unfold emit. intros H; inversion H; reflexivity. Qed.

Lemma memcpy_Ok (dst src : ptr) (n : Z) (w : world) (p : ptr) (w' : world) :
  memcpy dst src n w = Ok (p, w') ->
  exists a d0 b d,
    dst = Live a d0 /\ src = Live b d /\ p = Live a (take (Z.to_nat n) d)
    /\ w' = mkWorld (fresh w) (sched w) (trace w ++ [CallMemcpy dst src n]).
Proof.
  destruct dst as [|a d0|a], src as [|b d|b]; cbn; try discriminate.
  destruct (Z.of_nat (List.length d) <? n); [discriminate|].
  unfold bind, emit, ret. intros H; inversion H; subst.
  exists a, d0, b, d. auto.
Qed.

Lemma memcpy_not_null (dst src : ptr) (n : Z) (w : world) (p : ptr) (w' : world) :
  memcpy dst src n w = Ok (p, w') -> is_null p = false.
Proof.
  intros H. apply memcpy_Ok in H. destruct H as (a & d0 & b & d & _ & _ & -> & _).
  reflexivity.
Qed.

Lemma fill_head_next (t : MapTypeData) (node : MapNode) (k v : ptr)
      (w : world) (r : Z) (n' : MapNode) (w' : world) :
  fill_head t node k v w = Ok ((r, n'), w') -> next n' = next node.
Proof.
  unfold fill_head. intros H. run_inv H.
  destruct a as [ka|].
  - run_inv H. destruct a as [vb|].
    + run_inv H. apply ret_Ok in H. destruct H as [H _]. inversion H. reflexivity.
    + run_inv H. apply ret_Ok in H. destruct H as [H _]. inversion H. reflexivity.
  - apply ret_Ok in H. destruct H as [H _]. inversion H. reflexivity.
Qed.

Lemma new_overflow_shape (t : MapTypeData) (k v : ptr)
      (w : world) (n' : MapNode) (w' : world) :
  new_overflow t k v w = Ok (Some n', w') ->
  is_null (key n') = false /\ is_null (value n') = false /\ next n' = None.
Proof.
  unfold new_overflow. intros H. run_inv H.
  destruct a; [|apply ret_Ok in H; destruct H; discriminate].
  run_inv H. destruct a0.
  2:{ run_inv H. apply ret_Ok in H; destruct H; discriminate. }
  run_inv H. destruct a1.
  2:{ run_inv H. apply ret_Ok in H; destruct H; discriminate. }
  run_inv H. apply ret_Ok in H. destruct H as [H _]. inversion H; subst. cbn.
  eauto using memcpy_not_null.
Qed.

Lemma add_walk_shape (t : MapTypeData) (k v : ptr) (node : MapNode) :
  forall w r n' w',
    add_walk t node k v w = Ok ((r, n'), w') ->
    overflow_ok node ->
    key n' = key node
    /\ (value n' = value node \/ is_null (value n') = false)
    /\ overflow_ok n'.
Proof.
  induction node as [hk hv|hk hv nx IH] using MapNode_chain_ind;
    intros w r n' w' H Hok; cbn [add_walk next key value] in H.
  - run_inv H. destruct a as [nn|].
    + apply ret_Ok in H. destruct H as [H _]. inversion H; subst. cbn.
      apply new_overflow_shape in Hstep. destruct Hstep as (Hk & _ & Hn).
      repeat split; auto. unfold overflow_ok. cbn [overflow_nodes next].
      destruct nn as [a b c]. cbn in *. subst c. cbn. constructor; auto.
    + apply ret_Ok in H. destruct H as [H _]. inversion H; subst. auto.
  - run_inv H. destruct (a =? 0).
    + run_inv H. apply ret_Ok in H. destruct H as [H _]. inversion H; subst. cbn.
      repeat split; eauto using memcpy_not_null.
    + run_inv H. apply ret_Ok in H. destruct H as [H _]. inversion H; subst. cbn.
      destruct a0 as [r0 n0]. cbn.
      unfold overflow_ok in Hok. cbn [overflow_nodes next] in Hok.
      apply Forall_cons in Hok. destruct Hok as [Hk Hrest].
      destruct (IH _ _ _ _ Hstep0 Hrest) as (Hkey & _ & Hok').
      repeat split; auto. unfold overflow_ok. cbn [overflow_nodes next].
      constructor; [rewrite Hkey; exact Hk | exact Hok'].
Qed.

Lemma remove_walk_shape (t : MapTypeData) (k : ptr) (node : MapNode) :
  forall w hit o w',
    remove_walk t node k w = Ok ((hit, o), w') ->
    Forall (fun n => is_null (key n) = false) (chain_nodes node) ->
    match o with
    | Some n' => Forall (fun n => is_null (key n) = false) (chain_nodes n')
    | None => True
    end.
Proof.
  induction node as [hk hv|hk hv nx IH] using MapNode_chain_ind;
    intros w hit o w' H Hok; cbn [remove_walk next key value] in H;
    run_inv H; destruct a.
  - run_inv H. apply ret_Ok in H. destruct H as [H _]. inversion H; subst. exact I.
  - apply ret_Ok in H. destruct H as [H _]. inversion H; subst. exact Hok.
  - run_inv H. apply ret_Ok in H. destruct H as [H _]. inversion H; subst.
    unfold chain_nodes in Hok. cbn [overflow_nodes next] in Hok.
    apply Forall_cons in Hok. apply Hok.
  - run_inv H. apply ret_Ok in H. destruct H as [H _]. inversion H; subst.
    destruct a as [hit0 o0]. cbn [fst snd].
    unfold chain_nodes in Hok. cbn [overflow_nodes next] in Hok.
    apply Forall_cons in Hok. destruct Hok as [Hk Hrest].
    specialize (IH _ _ _ _ Hstep0 Hrest). cbn [snd].
    unfold chain_nodes. cbn [overflow_nodes next]. constructor; [exact Hk|].
    destruct o0 as [n0|]; [exact IH|constructor].
Qed.

Lemma remove_head_inv (t : MapTypeData) (k : ptr) (node : MapNode)
      (w : world) (hit : bool) (n' : MapNode) (w' : world) :
  remove_head t node k w = Ok ((hit, n'), w') ->
  chain_inv node -> chain_inv n'.
Proof.
  unfold remove_head. intros H [Hh Ho]. run_inv H.
  destruct node as [hk hv nxt]. cbn [next key value] in *.
  destruct a.
  - run_inv H. destruct nxt as [nx|].
    + run_inv H. apply ret_Ok in H. destruct H as [H _]. inversion H; subst.
      unfold overflow_ok in Ho. cbn [overflow_nodes next] in Ho.
      apply Forall_cons in Ho. destruct Ho as [Hk Hrest]. split; [|exact Hrest].
      intros E. unfold is_empty in E. rewrite Hk in E. discriminate E.
    + apply ret_Ok in H. destruct H as [H _]. inversion H; subst.
      split; [intros _; reflexivity|constructor].
  - destruct nxt as [nx|].
    + run_inv H. apply ret_Ok in H. destruct H as [H _]. inversion H; subst.
      destruct a as [hit0 o0]. cbn [fst snd]. split.
      * intros E. specialize (Hh E). discriminate Hh.
      * unfold overflow_ok in *. cbn [overflow_nodes next] in Ho.
        pose proof (remove_walk_shape _ _ _ _ _ _ _ Hstep0 Ho) as Hs.
        cbn [overflow_nodes next]. destruct o0 as [n0|]; [exact Hs|constructor].
    + apply ret_Ok in H. destruct H as [H _]. inversion H; subst. split; assumption.
Qed.

Lemma map_new_inv (t : MapTypeData) (count : Z) (w : world) (m : Map) (w' : world) :
  map_new t count w = Ok (Some m, w') -> Forall chain_inv (buckets m).
Proof.
  unfold map_new. intros H. run_inv H.
  destruct a; [|apply ret_Ok in H; destruct H; discriminate].
  run_inv H. destruct a0.
  - apply ret_Ok in H. destruct H as [H _]. inversion H; subst. cbn [buckets].
    apply Forall_replicate. split; [intros _; reflexivity|constructor].
  - run_inv H. apply ret_Ok in H; destruct H; discriminate.
Qed.

Lemma map_add_inv (m : Map) (k v : ptr) (w : world) (r : Z) (m' : Map) (w' : world) :
  map_add m k v w = Ok ((r, m'), w') ->
  Forall chain_inv (buckets m) -> Forall chain_inv (buckets m').
Proof.
  unfold map_add. intros H Hinv. run_inv H.
  destruct (buckets m !! Z.to_nat a0) as [node|] eqn:Hnode; [|discriminate].
  pose proof (Forall_lookup_1 _ _ _ _ Hinv Hnode) as [Hh Ho].
  destruct (is_null (key node) && is_null (value node)) eqn:E;
    run_inv H; apply ret_Ok in H; destruct H as [H _]; inversion H; subst;
    cbn [buckets]; apply Forall_insert; auto; destruct a1 as [r0 n0]; cbn [snd].
  - pose proof (fill_head_next _ _ _ _ _ _ _ _ Hstep1) as Hn.
    specialize (Hh E). split.
    + intros _. congruence.
    + unfold overflow_ok. destruct n0 as [nk nv nn]. cbn in Hn. subst nn.
      rewrite Hh. constructor.
  - destruct (add_walk_shape _ _ _ _ _ _ _ _ Hstep1 Ho) as (Hk & Hv & Ho').
    split; [|exact Ho']. intros E'. exfalso. unfold is_empty in E'.
    apply andb_true_iff in E'. destruct E' as [E1 E2]. rewrite Hk in E1.
    destruct Hv as [Hv|Hv]; [|congruence].
    rewrite Hv in E2. rewrite E1, E2 in E. discriminate E.
Qed.

Lemma map_remove_inv (m : Map) (k : ptr) (w : world) (r : Z) (m' : Map) (w' : world) :
  map_remove m k w = Ok ((r, m'), w') ->
  Forall chain_inv (buckets m) -> Forall chain_inv (buckets m').
Proof.
  unfold map_remove. intros H Hinv. run_inv H.
  destruct (buckets m !! Z.to_nat a0) as [node|] eqn:Hnode; [|discriminate].
  pose proof (Forall_lookup_1 _ _ _ _ Hinv Hnode) as Hc.
  run_inv H. destruct a1 as [hit n0]. cbn [fst snd] in H.
  destruct hit; apply ret_Ok in H; destruct H as [H _]; inversion H; subst.
  - cbn [buckets]. apply Forall_insert; eauto using remove_head_inv.
  - exact Hinv.
Qed.

Lemma reachable_inv (m : Map) : reachable m -> Forall chain_inv (buckets m).
Proof.
  induction 1; eauto using map_new_inv, map_add_inv, map_remove_inv.
Qed.

(** C9: in every table reachable through [map_new], [map_add] and
    [map_remove], a bucket head whose key and value are both null has a
    null [next] link. *)
Theorem reachable_empty_head_no_chain (m : Map) (b : MapNode) :
  reachable m -> In b (buckets m) ->
  is_null (key b) = true -> is_null (value b) = true ->
  next b = None.
Proof.
  intros Hr Hb Hk Hv. apply reachable_inv in Hr.
  rewrite Forall_forall in Hr. apply list_elem_of_In in Hb.
  destruct (Hr b Hb) as [Hh _]. apply Hh. unfold is_empty.
  rewrite Hk, Hv. reflexivity.
Qed.

Lemma reachable_empty_head_no_chain_witness :
  exists m : Map,
    reachable m /\ In zero_node (buckets m) /\ next zero_node = None.
Proof.
  pose (t1 := [CallMemcpy (Live 1002 []) (int_at 1 7) 4;
               CallMemcpy (Live 1003 []) (int_at 2 70) 4]).
  pose (t2 := t1 ++ [CallKeyFree map_default_free (int_at 1002 7);
                     CallValueFree map_default_free (int_at 1003 70);
                     CallFree (int_at 1002 7); CallFree (int_at 1003 70)]).
  assert (R0 : reachable (mkMap int_type' 0 [zero_node])).
  { apply (reach_new int_type 1 world0 _ (mkWorld 1002 [] [])). reflexivity. }
  assert (R1 : reachable (mkMap int_type' 1
                                 [mkNode (int_at 1002 7) (int_at 1003 70) None])).
  { apply (reach_add _ (int_at 1 7) (int_at 2 70) (mkWorld 1002 [] []) 0 _
                     (mkWorld 1004 [] t1) R0). reflexivity. }
  assert (R2 : reachable (mkMap int_type' 0 [zero_node])).
  { apply (reach_remove _ (int_at 1 7) (mkWorld 1004 [] t1) 0 _
                        (mkWorld 1004 [] t2) R1). reflexivity. }
  exists (mkMap int_type' 0 [zero_node]).
  assert (Hin : In zero_node (buckets (mkMap int_type' 0 [zero_node])))
    by (left; reflexivity).
  split; [exact R2|]. split; [exact Hin|].
  exact (reachable_empty_head_no_chain _ zero_node R2 Hin eq_refl eq_refl).
Defined.

(** ** map_remove at the head of a chain *)

Lemma buckets_count_insert (m : Map) (t : MapTypeData) (len : Z)
      (i : nat) (node : MapNode) :
  buckets_count (mkMap t len (<[i := node]> (buckets m))) = buckets_count m.
Proof. unfold buckets_count. cbn [buckets]. rewrite length_insert. reflexivity. Qed.

Lemma bucket_index_insert (m : Map) (t : MapTypeData) (len : Z)
      (i : nat) (node : MapNode) (h : Z) :
  bucket_index (mkMap t len (<[i := node]> (buckets m))) h = bucket_index m h.
Proof. unfold bucket_index. rewrite buckets_count_insert. reflexivity. Qed.

(** C4: when the key is held by a bucket head that has a successor,
    [map_remove] returns 0 after calling, in this order, the key
    disposer, the value disposer, [free] on the key block, [free] on the
    value block and [free] on the successor node; the successor's fields
    are now the head, the length is one less, and every lookup that did
    not answer with the removed value block answers as before. *)
Theorem map_remove_head_promotes_successor
        (m : Map) (k : ptr) (w : world) (hash i : Z)
        (ka va : addr) (kd vd : list byte) (s : MapNode) (kf vf : disposer) :
  call_hash (type m) k = Ok hash ->
  bucket_index m hash = Ok i ->
  buckets m !! Z.to_nat i = Some (mkNode (Live ka kd) (Live va vd) (Some s)) ->
  call_cmp (type m) (Live ka kd) k = Ok 0 ->
  key_free (type m) = Some kf ->
  value_free (type m) = Some vf ->
  exists m',
    map_remove m k w
    = Ok ((0, m'),
          mkWorld (fresh w) (sched w)
                  (trace w ++ [CallKeyFree kf (Live ka kd);
                               CallValueFree vf (Live va vd);
                               CallFree (Live ka kd);
                               CallFree (Live va vd);
                               CallFreeNode]))
    /\ buckets m' = <[Z.to_nat i := s]> (buckets m)
    /\ buckets m' !! Z.to_nat i = Some s
    /\ length m' = wrap (length m - 1)
    /\ (0 < length m < size_max -> length m' = length m - 1)
    /\ (forall k' p,
           map_get m k' = Ok p -> p <> Live va vd -> map_get m' k' = Ok p).
Proof.
  intros Hh Hi Hb Hc Hkf Hvf.
  exists (mkMap (type m) (wrap (length m - 1)) (<[Z.to_nat i := s]> (buckets m))).
  split; [|split; [reflexivity|split; [|split; [reflexivity|split]]]].
  - unfold map_remove, bind, lift. rewrite Hh, Hi, Hb.
    unfold remove_head, matches, bind, lift. cbn [key value next is_null].
    rewrite Hc. cbn [Z.eqb].
    unfold dispose_entry, call_key_free, call_value_free, bind.
    rewrite Hkf, Hvf. cbn [key value free emit ret fst snd fresh sched trace].
    repeat rewrite <- app_assoc. reflexivity.
  - cbn [buckets]. apply list_lookup_insert_eq.
    apply lookup_lt_Some in Hb. exact Hb.
  - intros Hl. cbn [length]. apply wrap_small. lia.
  - intros k' p Hg Hp. unfold map_get in *. cbn [type] in *.
    destruct (call_hash (type m) k') as [h'|e]; [|discriminate].
    rewrite bucket_index_insert.
    destruct (bucket_index m h') as [i'|e]; [|discriminate].
    cbn [buckets].
    destruct (decide (Z.to_nat i = Z.to_nat i')) as [E|E].
    + rewrite <- E in *. rewrite Hb in Hg.
      rewrite list_lookup_insert_eq by (apply lookup_lt_Some in Hb; exact Hb).
      cbn [get_walk key value next is_null andb] in Hg.
      destruct (call_cmp (type m) (Live ka kd) k') as [c|e]; [|discriminate].
      destruct (c =? 0).
      * inversion Hg. congruence.
      * exact Hg.
    + rewrite list_lookup_insert_ne by exact E. exact Hg.
Qed.

Lemma map_remove_head_promotes_successor_witness :
  exists m',
    fst (fst (match map_remove chain_7_8 (int_at 1 7) world0 with
              | Ok r => r
              | Fault _ => ((-1, chain_7_8), world0)
              end)) = 0
    /\ buckets m' = [mkNode (int_at 1005 8) (int_at 1006 80) None]
    /\ map_get m' (int_at 1 8) = Ok (int_at 1006 80).
Proof.
  destruct (map_remove_head_promotes_successor
              chain_7_8 (int_at 1 7) world0 7 0 1002 1003
              [7; 0; 0; 0] [70; 0; 0; 0]
              (mkNode (int_at 1005 8) (int_at 1006 80) None)
              map_default_free map_default_free
              eq_refl eq_refl eq_refl eq_refl eq_refl eq_refl)
    as (m' & Hrun & Hb & _ & _ & _ & Hget).
  exists m'. rewrite Hrun. split; [reflexivity|]. split; [exact Hb|].
  apply Hget; [reflexivity|discriminate].
Defined.

(** ** The update branch of map_add *)

Lemma fill_head_code (t : MapTypeData) (node : MapNode) (k v : ptr)
      (w : world) (r : Z) (n' : MapNode) (w' : world) :
  fill_head t node k v w = Ok ((r, n'), w') -> r = 0 \/ r = -1.
Proof.
  unfold fill_head. intros H. run_inv H.
  destruct a as [ka|].
  - run_inv H. destruct a as [vb|]; run_inv H;
      apply ret_Ok in H; destruct H as [H _]; inversion H; auto.
  - apply ret_Ok in H. destruct H as [H _]. inversion H; auto.
Qed.

Lemma call_value_free_Ok (t : MapTypeData) (p : ptr) (w : world) (u : unit) (w' : world) :
  call_value_free t p w = Ok (u, w') ->
  exists vf, value_free t = Some vf
             /\ w' = mkWorld (fresh w) (sched w) (trace w ++ [CallValueFree vf p]).
Proof.
  unfold call_value_free. destruct (value_free t) as [vf|]; [|discriminate].
  intros H. apply emit_Ok in H. eauto.
Qed.

Lemma add_walk_update (t : MapTypeData) (k v : ptr) (node : MapNode) :
  forall w n' w',
    add_walk t node k v w = Ok ((1, n'), w') ->
    exists vf n,
      value_free t = Some vf
      /\ In n (chain_nodes node)
      /\ call_cmp t (key n) k = Ok 0
      /\ trace w' = trace w ++ [CallValueFree vf (value n);
                                CallMemcpy (value n) v (value_size t)].
Proof.
  induction node as [hk hv|hk hv nx IH] using MapNode_chain_ind;
    intros w n' w' H; cbn [add_walk next key value] in H.
  - run_inv H. destruct a; apply ret_Ok in H; destruct H as [H _]; inversion H.
  - run_inv H. apply lift_Ok in Hstep. destruct Hstep as [Hc ->].
    destruct (a =? 0) eqn:E.
    + apply Z.eqb_eq in E. subst a. run_inv H.
      apply call_value_free_Ok in Hstep. destruct Hstep as (vf & Hvf & ->).
      apply memcpy_Ok in Hstep0. destruct Hstep0 as (? & ? & ? & ? & _ & _ & _ & ->).
      apply ret_Ok in H. destruct H as [_ ->].
      exists vf, (mkNode hk hv (Some nx)). cbn [key value trace].
      repeat split; auto; [left; reflexivity|].
      rewrite <- app_assoc. reflexivity.
    + run_inv H. apply ret_Ok in H. destruct H as [H ->]. inversion H.
      destruct a0 as [r0 n0]. cbn [fst] in *. subst r0.
      destruct (IH _ _ _ Hstep) as (vf & n & Hvf & Hin & Hcmp & Htr).
      exists vf, n. repeat split; auto. right. exact Hin.
Qed.

(** C5: whenever [map_add] takes the update branch (it returns 1), the
    calls it made are exactly the value disposer on the value block of a
    stored node whose key compares equal, followed by the [memcpy] that
    overwrites that block: the disposer runs first and sees the old
    value. *)
Theorem map_add_update_disposes_before_overwrite
        (m : Map) (k v : ptr) (w : world) (m' : Map) (w' : world) :
  map_add m k v w = Ok ((1, m'), w') ->
  exists vf b n,
    value_free (type m) = Some vf
    /\ In b (buckets m) /\ In n (chain_nodes b)
    /\ call_cmp (type m) (key n) k = Ok 0
    /\ trace w' = trace w ++ [CallValueFree vf (value n);
                              CallMemcpy (value n) v (value_size (type m))].
Proof.
  unfold map_add. intros H. run_inv H.
  apply lift_Ok in Hstep. destruct Hstep as [_ ->].
  apply lift_Ok in Hstep0. destruct Hstep0 as [_ ->].
  destruct (buckets m !! Z.to_nat a0) as [node|] eqn:Hnode; [|discriminate].
  destruct (is_null (key node) && is_null (value node)); run_inv H;
    apply ret_Ok in H; destruct H as [H ->]; inversion H;
    destruct a1 as [r0 n0]; cbn [fst snd] in *; subst r0.
  - apply fill_head_code in Hstep. destruct Hstep; discriminate.
  - destruct (add_walk_update _ _ _ _ _ _ _ Hstep) as (vf & n & Hvf & Hin & Hc & Htr).
    exists vf, node, n. repeat split; auto.
    apply list_elem_of_In. eapply list_elem_of_lookup_2. exact Hnode.
Qed.

Lemma map_add_update_disposes_before_overwrite_witness :
  exists vf b n,
    value_free (type chain_7_8) = Some vf
    /\ In b (buckets chain_7_8) /\ In n (chain_nodes b)
    /\ call_cmp (type chain_7_8) (key n) (int_at 1 7) = Ok 0
    /\ [CallValueFree map_default_free (int_at 1003 70);
        CallMemcpy (int_at 1003 70) (int_at 2 71) 4]
       = [] ++ [CallValueFree vf (value n);
                CallMemcpy (value n) (int_at 2 71) (value_size (type chain_7_8))].
Proof.
  apply (map_add_update_disposes_before_overwrite
           chain_7_8 (int_at 1 7) (int_at 2 71) world0
           (mkMap int_type' 2
                  [mkNode (int_at 1002 7) (int_at 1003 71)
                          (Some (mkNode (int_at 1005 8) (int_at 1006 80) None))])
           (mkWorld 1000 []
                    [CallValueFree map_default_free (int_at 1003 70);
                     CallMemcpy (int_at 1003 70) (int_at 2 71) 4])).
  reflexivity.
Defined.

(** ** map_optimize on a table without entries *)

(** C10: [map_optimize] on a table of length 0 returns a replacement
    table without buckets, and only the calls that follow divide by zero.
    The code does not get that far: a fresh table of one bucket has length
    0, and [map_optimize] hands the never-used head of that bucket to
    [map_add], whose hash call reads through the null key; no replacement
    table comes back. *)
Theorem map_optimize_fresh_bucket_faults :
  optimize_fresh int_type 1 world0 = Fault NullDeref.
Proof. vm_compute. reflexivity. Qed.

Lemma zero_buckets_index (m : Map) (h : Z) :
  buckets m = [] -> bucket_index m h = Fault DivByZero.
Proof. intros E. unfold bucket_index, buckets_count. rewrite E. reflexivity. Qed.

(** For a table of length 0 the bucket count [map_optimize] asks for is
    0, and [map_new] accepts it.  When the table has no bucket of its own
    (it was itself made with a bucket count of 0) and the allocations
    succeed, [map_optimize] returns a table that has no bucket either, and
    every later [map_add], [map_get] and [map_remove] whose hash call
    returns divides by zero. *)
Theorem map_optimize_zero_buckets (m : Map) (w : world) :
  length m = 0 -> buckets m = [] -> sched w = [] ->
  new_buckets_count m = 0
  /\ exists m' w',
      map_optimize m w = Ok (Some m', w')
      /\ buckets_count m' = 0
      /\ forall k v w2 h,
          call_hash (type m') k = Ok h ->
          map_add m' k v w2 = Fault DivByZero
          /\ map_get m' k = Fault DivByZero
          /\ map_remove m' k w2 = Fault DivByZero.
Proof.
  intros Hl Hb Hs.
  assert (Hn : new_buckets_count m = 0)
    by (unfold new_buckets_count; rewrite Hl; reflexivity).
  split; [exact Hn|].
  unfold map_optimize, map_new, map_free, bind, malloc. rewrite Hs, Hb, Hn.
  cbn [sched for_buckets ret emit fresh trace buckets Z.to_nat replicate].
  eexists. eexists. split; [reflexivity|]. split; [reflexivity|].
  intros k v w2 h Hh. unfold map_add, map_get, map_remove, bind, lift.
  rewrite Hh. rewrite zero_buckets_index by reflexivity. auto.
Qed.

Lemma map_optimize_zero_buckets_witness :
  exists m',
    buckets_count m' = 0
    /\ map_get m' (int_at 1 7) = Fault DivByZero.
Proof.
  destruct (map_optimize_zero_buckets (mkMap int_type' 0 []) world0
                                      eq_refl eq_refl eq_refl)
    as (_ & m' & w' & Hrun & Hc & Hops).
  exists m'. split; [exact Hc|].
  inversion Hrun; subst m'.
  exact (proj1 (proj2 (Hops (int_at 1 7) (int_at 2 70) world0 7 eq_refl))).
Defined.

(** For a table of length 0 that has a bucket, the zero divisor is met
    inside [map_optimize] itself: when the allocations succeed and the
    hash function returns on the key of the first bucket head (the null
    key of a never-used head, say), the [map_add] that re-inserts that
    head into the replacement table of 0 buckets computes
    [hash % buckets_count] with a zero divisor. *)
Theorem map_optimize_length_zero_divides
        (m : Map) (b : MapNode) (bs : list MapNode) (w : world)
        (f : ptr -> res Z) (x : Z) :
  length m = 0 -> buckets m = b :: bs -> sched w = [] ->
  key_hash (type m) = Some f -> f (key b) = Ok x ->
  map_optimize m w = Fault DivByZero.
Proof.
  intros Hl Hb Hs Hf Hx.
  assert (Hn : new_buckets_count m = 0)
    by (unfold new_buckets_count; rewrite Hl; reflexivity).
  unfold map_optimize, map_new, bind, malloc. rewrite Hs, Hb, Hn.
  cbn [sched fresh trace ret Z.to_nat replicate for_buckets].
  assert (Hadd : forall t' v w1,
             key_hash t' = Some f ->
             map_add (mkMap t' 0 []) (key b) v w1 = Fault DivByZero).
  { intros t' v w1 Ht. unfold map_add, bind, lift, call_hash. cbn [type].
    rewrite Ht, Hx. reflexivity. }
  destruct b as [hk hv [nx|]]; cbn [readd_chain key value next] in *;
    unfold bind; rewrite Hadd by (cbn [key_hash]; rewrite Hf; reflexivity);
    reflexivity.
Qed.

Lemma map_optimize_length_zero_divides_witness :
  map_optimize addr_table world0 = Fault DivByZero.
Proof.
  apply (map_optimize_length_zero_divides
           addr_table zero_node [] world0 addr_hash 0);
    reflexivity.
Defined.

(** ** Indexing the bucket array *)

Lemma call_hash_range (t : MapTypeData) (k : ptr) (h : Z) :
  call_hash t k = Ok h -> 0 <= h < size_max.
Proof.
  unfold call_hash. destruct (key_hash t) as [f|]; [|discriminate].
  destruct (f k) as [x|e]; [|discriminate].
  intros H. inversion H. apply wrap_range.
Qed.

(** The index computed from a hash always designates a bucket of the
    array: neither [map_add] nor [map_get] nor [map_remove] reads a head
    outside of it. *)
Theorem bucket_index_in_array (m : Map) (k : ptr) (h i : Z) :
  call_hash (type m) k = Ok h ->
  bucket_index m h = Ok i ->
  0 <= i < buckets_count m /\ is_Some (buckets m !! Z.to_nat i).
Proof.
  intros Hh Hi. apply call_hash_range in Hh. unfold bucket_index in Hi.
  destruct (buckets_count m =? 0) eqn:E; [discriminate|].
  apply Z.eqb_neq in E. inversion Hi; subst i. clear Hi.
  assert (Hpos : 0 < buckets_count m) by (unfold buckets_count in *; lia).
  pose proof (Z.mod_pos_bound h (buckets_count m) Hpos) as Hr.
  split; [exact Hr|]. apply lookup_lt_is_Some.
  unfold buckets_count in *. lia.
Qed.

Lemma bucket_index_in_array_witness :
  0 <= 1 < buckets_count two_bucket_table
  /\ is_Some (buckets two_bucket_table !! Z.to_nat 1).
Proof.
  apply (bucket_index_in_array two_bucket_table (int_at 1 7) 7 1);
    reflexivity.
Defined.

(** ** map_new *)

Lemma malloc_Ok (w : world) (o : option addr) (w' : world) :
  malloc w = Ok (o, w') ->
  trace w' = trace w
  /\ ((o = None /\ exists s, sched w = false :: s /\ sched w' = s)
      \/ (o = Some (fresh w) /\ fresh w' = fresh w + 1
          /\ (sched w = true :: sched w' \/ (sched w = [] /\ sched w' = [])))).
Proof.
  unfold malloc. destruct (sched w) as [|[|] s] eqn:E; intros H; inversion H; subst;
    cbn; split; eauto 10.
Qed.

(** A table that [map_new] returns is empty: its length is 0, it has as
    many buckets as asked for, all of them zeroed, it counts no collision,
    none of its four function pointers is null, and every lookup whose
    hash call returns answers with the null pointer. *)
Theorem map_new_fresh_table (t : MapTypeData) (count : Z) (w : world)
        (m : Map) (w' : world) :
  0 <= count ->
  map_new t count w = Ok (Some m, w') ->
  length m = 0
  /\ buckets_count m = count
  /\ Forall (fun b => b = zero_node) (buckets m)
  /\ map_count_collisions m = 0
  /\ (key_hash (type m) <> None /\ key_cmp (type m) <> None
      /\ key_free (type m) <> None /\ value_free (type m) <> None)
  /\ (forall k h, call_hash (type m) k = Ok h -> 0 < count ->
                  map_get m k = Ok Null).
Proof.
  intros Hc H. unfold map_new in H. run_inv H.
  destruct a; [|apply ret_Ok in H; destruct H; discriminate].
  run_inv H. destruct a0.
  2:{ run_inv H. apply ret_Ok in H; destruct H; discriminate. }
  apply ret_Ok in H. destruct H as [H _]. inversion H; subst m. clear H.
  cbn [length type buckets key_hash key_cmp key_free value_free].
  assert (Hbc : buckets_count
                  (mkMap (mkType (key_size t) (value_size t)
                                 (or_default (key_hash t) map_default_hash)
                                 (or_default (key_cmp t) map_default_cmp)
                                 (or_default (key_free t) map_default_free)
                                 (or_default (value_free t) map_default_free))
                         0 (replicate (Z.to_nat count) zero_node)) = count).
  { unfold buckets_count. cbn [buckets]. rewrite length_replicate. lia. }
  split; [reflexivity|]. split; [exact Hbc|].
  split; [apply Forall_replicate; reflexivity|]. split.
  - unfold map_count_collisions. cbn [buckets]. clear.
    induction (Z.to_nat count) as [|n IH]; [reflexivity|exact IH].
  - split.
    + unfold or_default.
      destruct (key_hash t), (key_cmp t), (key_free t), (value_free t);
        repeat split; discriminate.
    + intros k h Hh Hpos. unfold map_get. cbn [type]. rewrite Hh.
      unfold bucket_index. rewrite Hbc.
      destruct (count =? 0) eqn:E; [apply Z.eqb_eq in E; lia|].
      cbn [buckets type].
      destruct (replicate (Z.to_nat count) zero_node !! Z.to_nat (h mod count))
        as [node|] eqn:Hn.
      * apply lookup_replicate in Hn. destruct Hn as [-> _]. reflexivity.
      * exfalso. apply lookup_ge_None in Hn. rewrite length_replicate in Hn.
        pose proof (Z.mod_pos_bound h count Hpos). lia.
Qed.

Lemma map_new_fresh_table_witness :
  exists m, length m = 0 /\ buckets_count m = 16
            /\ map_get m (int_at 1 7) = Ok Null.
Proof.
  pose (m := mkMap int_type' 0 (replicate 16 zero_node)).
  destruct (map_new_fresh_table int_type 16 world0 m (mkWorld 1002 [] [])
                                ltac:(lia) eq_refl)
    as (Hl & Hc & _ & _ & _ & Hg).
  exists m. split; [exact Hl|]. split; [exact Hc|].
  apply (Hg (int_at 1 7) 7); [reflexivity|lia].
Defined.

(** When an allocation fails [map_new] returns the null pointer, and it
    has by then released what it had obtained: nothing if the table
    struct itself could not be allocated, the table struct if the bucket
    array could not. *)
Theorem map_new_failure_releases (t : MapTypeData) (count : Z)
        (w w' : world) :
  map_new t count w = Ok (None, w') ->
  (exists s, sched w = false :: s /\ sched w' = s /\ trace w' = trace w)
  \/ (exists s, sched w = true :: false :: s /\ sched w' = s
                /\ trace w' = trace w ++ [CallFreeMap]).
Proof.
  unfold map_new, bind, malloc.
  destruct (sched w) as [|[|] s] eqn:E; cbn [sched fresh trace].
  - intros H. inversion H.
  - destruct s as [|[|] s']; cbn; intros H; inversion H. subst.
    right. exists s'. auto.
  - intros H. inversion H. subst. left. exists s. auto.
Qed.

Lemma map_new_failure_releases_witness :
  trace (mkWorld 1001 [] [CallFreeMap]) = [] ++ [CallFreeMap].
Proof.
  destruct (map_new_failure_releases
              int_type 16 (mkWorld 1000 [true; false] [])
              (mkWorld 1001 [] [CallFreeMap]) eq_refl)
    as [(s & Hs & _)|(s & _ & _ & Ht)].
  - discriminate Hs.
  - exact Ht.
Defined.

(** ** map_get as a search in an association list *)

Lemma get_walk_find (t : MapTypeData) (k : ptr) (node : MapNode) :
  Forall (fun n => is_null (key n) = false) (chain_nodes node) ->
  get_walk t node k
  = find_entry t k (map (fun n => (key n, value n)) (chain_nodes node)).
Proof.
  induction node as [hk hv|hk hv nx IH] using MapNode_chain_ind;
    intros Hok; unfold chain_nodes in *; cbn [overflow_nodes next] in *;
    apply Forall_cons in Hok; destruct Hok as [Hk Hrest];
    cbn [get_walk key value next map find_entry] in *; rewrite Hk; cbn [andb].
  - reflexivity.
  - destruct (call_cmp t hk k) as [c|e]; [|reflexivity].
    destruct (c =? 0); [reflexivity|]. apply IH. exact Hrest.
Qed.

Lemma get_walk_entries (t : MapTypeData) (k : ptr) (head : MapNode) :
  overflow_ok head ->
  get_walk t head k = find_entry t k (entries head).
Proof.
  intros Ho. unfold entries, is_empty.
  destruct head as [hk hv nxt].
  destruct (is_null hk && is_null hv) eqn:E; cbn [key value] in *.
  - destruct nxt; cbn [get_walk key value]; rewrite E; reflexivity.
  - unfold overflow_ok in Ho. unfold chain_nodes.
    destruct nxt as [nx|]; cbn [overflow_nodes next get_walk key value] in *;
      rewrite E; simpl find_entry;
      destruct (call_cmp t hk k) as [c|e]; try reflexivity;
      destruct (c =? 0); try reflexivity.
    rewrite (get_walk_find t k nx Ho). reflexivity.
Qed.

Lemma map_get_entries (m : Map) (k : ptr) (h i : Z) (head : MapNode) :
  call_hash (type m) k = Ok h ->
  bucket_index m h = Ok i ->
  buckets m !! Z.to_nat i = Some head ->
  overflow_ok head ->
  map_get m k = find_entry (type m) k (entries head).
Proof.
  intros Hh Hi Hb Ho. unfold map_get. rewrite Hh, Hi, Hb.
  apply get_walk_entries. exact Ho.
Qed.

(** In a bucket whose overflow nodes all carry a key (as in every
    reachable table), [map_get] answers with the value of the first entry
    of the key's bucket that the comparison function finds equal, and with
    the null pointer when the bucket has none. *)
Theorem map_get_first_match (m : Map) (k : ptr) (h i : Z) (head : MapNode) :
  call_hash (type m) k = Ok h ->
  bucket_index m h = Ok i ->
  buckets m !! Z.to_nat i = Some head ->
  overflow_ok head ->
  map_get m k = find_entry (type m) k (entries head).
Proof.
  intros Hh Hi Hb Ho. unfold map_get. rewrite Hh, Hi, Hb.
  apply get_walk_entries. exact Ho.
Qed.

Lemma map_get_first_match_witness :
  map_get chain_7_8 (int_at 1 8)
  = find_entry int_type' (int_at 1 8)
               [(int_at 1002 7, int_at 1003 70); (int_at 1005 8, int_at 1006 80)].
Proof.
  apply (map_get_first_match chain_7_8 (int_at 1 8) 8 0
           (mkNode (int_at 1002 7) (int_at 1003 70)
                   (Some (mkNode (int_at 1005 8) (int_at 1006 80) None))));
    try reflexivity.
  repeat constructor.
Defined.

(** ** What map_add does to a chain *)

Lemma malloc_Some (w : world) (a : addr) (w' : world) :
  malloc w = Ok (Some a, w') ->
  a = fresh w /\ fresh w' = fresh w + 1 /\ trace w' = trace w.
Proof.
  intros H. apply malloc_Ok in H. destruct H as (Ht & [(E & _)|(E & Hf & _)]).
  - discriminate E.
  - inversion E. auto.
Qed.

Lemma memcpy_copy (a : addr) (src : ptr) (n : Z) (w : world) (p : ptr) (w' : world) :
  memcpy (Live a []) src n w = Ok (p, w') ->
  is_live src = true /\ p = copy_of a src n
  /\ fresh w' = fresh w
  /\ trace w' = trace w ++ [CallMemcpy (Live a []) src n].
Proof.
  intros H. apply memcpy_Ok in H.
  destruct H as (a' & d0 & b & d & Ha & -> & -> & ->).
  inversion Ha; subst. cbn. auto.
Qed.

Lemma new_overflow_Some (t : MapTypeData) (k v : ptr)
      (w : world) (n' : MapNode) (w' : world) :
  new_overflow t k v w = Ok (Some n', w') ->
  is_live k = true /\ is_live v = true
  /\ n' = mkNode (copy_of (fresh w + 1) k (key_size t))
                 (copy_of (fresh w + 2) v (value_size t)) None
  /\ fresh w' = fresh w + 3
  /\ trace w' = trace w ++ [CallMemcpy (Live (fresh w + 1) []) k (key_size t);
                            CallMemcpy (Live (fresh w + 2) []) v (value_size t)].
Proof.
  unfold new_overflow. intros H. run_inv H.
  destruct a; [|apply ret_Ok in H; destruct H; discriminate].
  run_inv H. destruct a0.
  2:{ run_inv H. apply ret_Ok in H; destruct H; discriminate. }
  run_inv H. destruct a1.
  2:{ run_inv H. apply ret_Ok in H; destruct H; discriminate. }
  run_inv H. apply ret_Ok in H. destruct H as [H ->]. inversion H; subst n'.
  apply malloc_Some in Hstep, Hstep0, Hstep1.
  destruct Hstep as (_ & Hf0 & Ht0), Hstep0 as (-> & Hf1 & Ht1),
           Hstep1 as (-> & Hf2 & Ht2).
  apply memcpy_copy in Hstep2, Hstep3.
  destruct Hstep2 as (Lk & -> & Hf3 & Ht3), Hstep3 as (Lv & -> & Hf4 & Ht4).
  rewrite Hf0, Hf1 in *.
  replace (fresh w + 1 + 1) with (fresh w + 2) in * by lia.
  repeat split; auto; [lia|].
  rewrite Ht4, Ht3, Ht2, Ht1, Ht0, <- app_assoc. reflexivity.
Qed.

Lemma fill_head_Ok0 (t : MapTypeData) (node : MapNode) (k v : ptr)
      (w : world) (n' : MapNode) (w' : world) :
  fill_head t node k v w = Ok ((0, n'), w') ->
  is_live k = true /\ is_live v = true
  /\ n' = mkNode (copy_of (fresh w) k (key_size t))
                 (copy_of (fresh w + 1) v (value_size t)) (next node)
  /\ fresh w' = fresh w + 2
  /\ trace w' = trace w ++ [CallMemcpy (Live (fresh w) []) k (key_size t);
                            CallMemcpy (Live (fresh w + 1) []) v (value_size t)].
Proof.
  unfold fill_head. intros H. run_inv H.
  destruct a; [|apply ret_Ok in H; destruct H as [H _]; discriminate].
  run_inv H. destruct a0.
  2:{ run_inv H. apply ret_Ok in H; destruct H as [H _]; discriminate. }
  run_inv H. apply ret_Ok in H. destruct H as [H ->]. inversion H; subst n'.
  apply malloc_Some in Hstep, Hstep0.
  destruct Hstep as (-> & Hf0 & Ht0), Hstep0 as (-> & Hf1 & Ht1).
  apply memcpy_copy in Hstep1, Hstep2.
  destruct Hstep1 as (Lk & -> & Hf3 & Ht3), Hstep2 as (Lv & -> & Hf4 & Ht4).
  rewrite Hf0 in *.
  repeat split; auto; [lia|].
  rewrite Ht4, Ht3, Ht1, Ht0, <- app_assoc. reflexivity.
Qed.

Lemma pairs_link (hk hv : ptr) (nx : MapNode) :
  pairs (mkNode hk hv (Some nx)) = (hk, hv) :: pairs nx.
Proof. reflexivity. Qed.

Lemma copy_of_live (a : addr) (src : ptr) (n : Z) :
  is_live src = true -> is_live (copy_of a src n) = true.
Proof. destruct src; cbn; auto. Qed.

(** A run of the walk that returns 0 has appended one node. *)
Lemma add_walk_Ok0 (t : MapTypeData) (k v : ptr) (node : MapNode) :
  forall w n' w',
    add_walk t node k v w = Ok ((0, n'), w') ->
    is_live k = true /\ is_live v = true
    /\ pairs n' = pairs node ++ [(copy_of (fresh w + 1) k (key_size t),
                                  copy_of (fresh w + 2) v (value_size t))]
    /\ Forall (differs t k) (removelast (pairs node))
    /\ fresh w' = fresh w + 3
    /\ trace w' = trace w ++ [CallMemcpy (Live (fresh w + 1) []) k (key_size t);
                              CallMemcpy (Live (fresh w + 2) []) v (value_size t)].
Proof.
  induction node as [hk hv|hk hv nx IH] using MapNode_chain_ind;
    intros w n' w' H; cbn [add_walk next key value] in H.
  - run_inv H. destruct a as [nn|].
    + apply ret_Ok in H. destruct H as [H ->]. inversion H; subst n'.
      apply new_overflow_Some in Hstep.
      destruct Hstep as (Lk & Lv & -> & Hf & Ht).
      repeat split; auto.
    + apply ret_Ok in H. destruct H as [H _]. inversion H.
  - run_inv H. apply lift_Ok in Hstep. destruct Hstep as [Hc ->].
    destruct (a =? 0) eqn:E.
    + run_inv H. apply ret_Ok in H. destruct H as [H _]. inversion H.
    + run_inv H. apply ret_Ok in H. destruct H as [H ->].
      destruct a0 as [r0 n0]. cbn [fst snd] in H. inversion H; subst r0 n'.
      destruct (IH _ _ _ Hstep) as (Lk & Lv & Hp & Hd & Hf & Ht).
      repeat split; auto.
      * rewrite !pairs_link, Hp. reflexivity.
      * rewrite pairs_link.
        assert (Hne : pairs nx <> []) by (destruct nx; discriminate).
        destruct (pairs nx) as [|p ps] eqn:Ep; [congruence|].
        cbn [removelast]. constructor; [|exact Hd].
        exists a. split; [exact Hc|]. apply Z.eqb_neq. exact E.
Qed.

(** A run of the walk that returns 1 has replaced the value of the first
    node whose key compares equal, and that node has a successor. *)
Lemma add_walk_Ok1 (t : MapTypeData) (k v : ptr) (node : MapNode) :
  forall w n' w',
    add_walk t node k v w = Ok ((1, n'), w') ->
    exists l1 ek old l2,
      pairs node = l1 ++ (ek, old) :: l2
      /\ l2 <> []
      /\ Forall (differs t k) l1
      /\ call_cmp t ek k = Ok 0
      /\ is_live old = true /\ is_live v = true
      /\ pairs n' = l1 ++ (ek, copy_of (addr_of old) v (value_size t)) :: l2
      /\ fresh w' = fresh w.
Proof.
  induction node as [hk hv|hk hv nx IH] using MapNode_chain_ind;
    intros w n' w' H; cbn [add_walk next key value] in H.
  - run_inv H. destruct a; apply ret_Ok in H; destruct H as [H _]; inversion H.
  - run_inv H. apply lift_Ok in Hstep. destruct Hstep as [Hc ->].
    destruct (a =? 0) eqn:E.
    + apply Z.eqb_eq in E. subst a. run_inv H.
      apply call_value_free_Ok in Hstep. destruct Hstep as (vf & Hvf & ->).
      apply memcpy_Ok in Hstep0.
      destruct Hstep0 as (va & d0 & b & d & -> & -> & -> & ->).
      apply ret_Ok in H. destruct H as [H ->]. inversion H; subst n'.
      exists [], hk, (Live va d0), (pairs nx).
      repeat split; auto; try (destruct nx; discriminate).
    + run_inv H. apply ret_Ok in H. destruct H as [H ->].
      destruct a0 as [r0 n0]. cbn [fst snd] in H. inversion H; subst r0 n'.
      destruct (IH _ _ _ Hstep)
        as (l1 & ek & old & l2 & Hp & Hne & Hd & Hc0 & Lo & Lv & Hp' & Hf).
      exists ((hk, hv) :: l1), ek, old, l2.
      rewrite !pairs_link, Hp, Hp'. repeat split; auto.
      constructor; [|exact Hd].
      exists a. split; [exact Hc|]. apply Z.eqb_neq. exact E.
Qed.

(** A run of the walk that returns -1 has left the chain as it was. *)
Lemma add_walk_fail (t : MapTypeData) (k v : ptr) (node : MapNode) :
  forall w r n' w',
    add_walk t node k v w = Ok ((r, n'), w') ->
    r <> 0 -> r <> 1 -> r = -1 /\ n' = node.
Proof.
  induction node as [hk hv|hk hv nx IH] using MapNode_chain_ind;
    intros w r n' w' H H0 H1; cbn [add_walk next key value] in H.
  - run_inv H. destruct a; apply ret_Ok in H; destruct H as [H _];
      inversion H; subst; auto. congruence.
  - run_inv H. destruct (a =? 0).
    + run_inv H. apply ret_Ok in H. destruct H as [H _]. inversion H. congruence.
    + run_inv H. apply ret_Ok in H. destruct H as [H _].
      destruct a0 as [r0 n0]. cbn [fst snd] in H. inversion H; subst r0 n'.
      destruct (IH _ _ _ _ Hstep0 H0 H1) as [-> ->]. auto.
Qed.

Lemma find_entry_skip (t : MapTypeData) (k : ptr) (l1 l2 : list (ptr * ptr)) :
  Forall (differs t k) l1 -> find_entry t k (l1 ++ l2) = find_entry t k l2.
Proof.
  induction 1 as [|[ek ev] l1 (c & Hc & Hne) _ IH]; [reflexivity|].
  cbn [app find_entry fst] in *. rewrite Hc.
  apply Z.eqb_neq in Hne. rewrite Hne. exact IH.
Qed.

Lemma find_entry_hit (t : MapTypeData) (k ek ev : ptr) (l : list (ptr * ptr)) :
  call_cmp t ek k = Ok 0 -> find_entry t k ((ek, ev) :: l) = Ok ev.
Proof. intros H. cbn [find_entry]. rewrite H. reflexivity. Qed.

Lemma entries_nonempty (head : MapNode) :
  is_empty head = false -> entries head = pairs head.
Proof. unfold entries. intros ->. reflexivity. Qed.

Lemma map_rebuild (m : Map) (i : nat) (head : MapNode) :
  buckets m !! i = Some head ->
  mkMap (type m) (length m) (<[i := head]> (buckets m)) = m.
Proof.
  intros H. rewrite list_insert_id by exact H. destruct m; reflexivity.
Qed.

(** The two branches of [map_add], with the bucket they work on. *)
Lemma map_add_Ok (m : Map) (k v : ptr) (w : world) (r : Z) (m' : Map) (w' : world) :
  map_add m k v w = Ok ((r, m'), w') ->
  exists h i head head',
    call_hash (type m) k = Ok h
    /\ bucket_index m h = Ok i
    /\ buckets m !! Z.to_nat i = Some head
    /\ m' = mkMap (type m)
                  (if r =? 0 then wrap (length m + 1) else length m)
                  (<[Z.to_nat i := head']> (buckets m))
    /\ ((is_empty head = true
         /\ fill_head (type m) head k v w = Ok ((r, head'), w'))
        \/ (is_empty head = false
            /\ add_walk (type m) head k v w = Ok ((r, head'), w'))).
Proof.
  unfold map_add. intros H. run_inv H.
  apply lift_Ok in Hstep. destruct Hstep as [Hh ->].
  apply lift_Ok in Hstep0. destruct Hstep0 as [Hi ->].
  destruct (buckets m !! Z.to_nat a0) as [head|] eqn:Hb; [|discriminate].
  exists a, a0, head.
  destruct (is_null (key head) && is_null (value head)) eqn:E;
    run_inv H; apply ret_Ok in H; destruct H as [H ->];
    destruct a1 as [r0 n0]; unfold store_add in H; cbn [fst snd] in H;
    inversion H; subst r0; exists n0; repeat split; auto.
Qed.

Lemma add_walk_nonempty (t : MapTypeData) (k v : ptr) (head : MapNode)
      (w : world) (r : Z) (n' : MapNode) (w' : world) :
  add_walk t head k v w = Ok ((r, n'), w') ->
  is_empty head = false -> is_empty n' = false.
Proof.
  destruct head as [hk hv [nx|]]; cbn [add_walk next key value]; intros H E;
    run_inv H.
  - destruct (a =? 0); run_inv H; apply ret_Ok in H; destruct H as [H _];
      inversion H; subst; unfold is_empty in *; cbn [key value] in *.
    + apply memcpy_not_null in Hstep1. rewrite Hstep1. apply andb_false_r.
    + exact E.
  - destruct a; apply ret_Ok in H; destruct H as [H _]; inversion H; subst;
      exact E.
Qed.

(** A [map_add] that returns 0 has added exactly one entry, at the end of
    the key's bucket: copies of the key bytes and of the value bytes in
    two blocks allocated during the call.  The entries that were there
    stay as they were, in their order, the other buckets are untouched and
    the length field is one more. *)
Theorem map_add_appends_entry
        (m : Map) (k v : ptr) (w : world) (m' : Map) (w' : world) :
  heads_ok m ->
  map_add m k v w = Ok ((0, m'), w') ->
  exists h i head head' a b,
    call_hash (type m) k = Ok h
    /\ bucket_index m h = Ok i
    /\ buckets m !! Z.to_nat i = Some head
    /\ buckets m' = <[Z.to_nat i := head']> (buckets m)
    /\ type m' = type m
    /\ length m' = wrap (length m + 1)
    /\ is_live k = true /\ is_live v = true
    /\ fresh w <= a < fresh w' /\ fresh w <= b < fresh w' /\ a <> b
    /\ entries head'
       = entries head ++ [(copy_of a k (key_size (type m)),
                           copy_of b v (value_size (type m)))].
Proof.
  intros Hok H. apply map_add_Ok in H.
  destruct H as (h & i & head & head' & Hh & Hi & Hb & -> & [[E Hf]|[E Hw]]).
  - apply fill_head_Ok0 in Hf. destruct Hf as (Lk & Lv & -> & Hfr & _).
    exists h, i, head, (mkNode (copy_of (fresh w) k (key_size (type m)))
                               (copy_of (fresh w + 1) v (value_size (type m)))
                               (next head)),
           (fresh w), (fresh w + 1).
    repeat split; auto; try lia.
    unfold entries. rewrite E.
    pose proof (Forall_lookup_1 _ _ _ _ Hok Hb E) as Hn. rewrite Hn.
    unfold is_empty. cbn [key value].
    destruct k; try discriminate Lk. reflexivity.
  - pose proof (add_walk_nonempty _ _ _ _ _ _ _ _ Hw E) as E'.
    apply add_walk_Ok0 in Hw. destruct Hw as (Lk & Lv & Hp & _ & Hfr & _).
    exists h, i, head, head', (fresh w + 1), (fresh w + 2).
    repeat split; auto; try lia.
    rewrite (entries_nonempty _ E), (entries_nonempty _ E'). exact Hp.
Qed.

Lemma map_add_appends_entry_witness :
  exists head',
    entries head'
    = entries (mkNode (int_at 1002 7) (int_at 1003 70)
                      (Some (mkNode (int_at 1005 8) (int_at 1006 80) None)))
      ++ [(int_at 2001 9, int_at 2002 90)].
Proof.
  pose (m' := mkMap int_type' 3
     [mkNode (int_at 1002 7) (int_at 1003 70)
        (Some (mkNode (int_at 1005 8) (int_at 1006 80)
           (Some (mkNode (int_at 2001 9) (int_at 2002 90) None))))]).
  pose (w' := mkWorld 2003 []
     [CallMemcpy (Live 2001 []) (int_at 1 9) 4;
      CallMemcpy (Live 2002 []) (int_at 2 90) 4]).
  assert (Hok : heads_ok chain_7_8).
  { repeat constructor. intros E. discriminate E. }
  destruct (map_add_appends_entry chain_7_8 (int_at 1 9) (int_at 2 90)
              (mkWorld 2000 [] []) m' w' Hok eq_refl)
    as (h & i & head & head' & a & b & Hh & Hi & Hb & _ & _ & _ & _ & _
        & Ha & Hbb & _ & He).
  cbn in Hh. inversion Hh; subst h. cbn in Hi. inversion Hi; subst i.
  cbn in Hb. inversion Hb; subst head.
  exists (mkNode (int_at 1002 7) (int_at 1003 70)
            (Some (mkNode (int_at 1005 8) (int_at 1006 80)
               (Some (mkNode (int_at 2001 9) (int_at 2002 90) None))))).
  reflexivity.
Defined.

(** A [map_add] that returns 1 has overwritten, in place, the value block
    of the first entry of the bucket whose key compares equal to the new
    key, and that entry is not the last of its chain: the loop of
    [map_add] never compares the key of the last node.  Keys, order,
    length field and the other buckets are unchanged and nothing was
    allocated. *)
Theorem map_add_updates_entry
        (m : Map) (k v : ptr) (w : world) (m' : Map) (w' : world) :
  map_add m k v w = Ok ((1, m'), w') ->
  exists h i head head' l1 ek old l2,
    call_hash (type m) k = Ok h
    /\ bucket_index m h = Ok i
    /\ buckets m !! Z.to_nat i = Some head
    /\ buckets m' = <[Z.to_nat i := head']> (buckets m)
    /\ type m' = type m /\ length m' = length m /\ fresh w' = fresh w
    /\ entries head = l1 ++ (ek, old) :: l2
    /\ l2 <> []
    /\ Forall (differs (type m) k) l1
    /\ call_cmp (type m) ek k = Ok 0
    /\ entries head'
       = l1 ++ (ek, copy_of (addr_of old) v (value_size (type m))) :: l2.
Proof.
  intros H. apply map_add_Ok in H.
  destruct H as (h & i & head & head' & Hh & Hi & Hb & -> & [[E Hf]|[E Hw]]).
  - apply fill_head_code in Hf. destruct Hf; discriminate.
  - pose proof (add_walk_nonempty _ _ _ _ _ _ _ _ Hw E) as E'.
    apply add_walk_Ok1 in Hw.
    destruct Hw as (l1 & ek & old & l2 & Hp & Hne & Hd & Hc & _ & _ & Hp' & Hfr).
    exists h, i, head, head', l1, ek, old, l2.
    rewrite (entries_nonempty _ E), (entries_nonempty _ E').
    repeat split; auto.
Qed.

Lemma map_add_updates_entry_witness :
  exists h i head head' l1 ek old l2,
    call_hash (type chain_7_8) (int_at 1 7) = Ok h
    /\ bucket_index chain_7_8 h = Ok i
    /\ buckets chain_7_8 !! Z.to_nat i = Some head
    /\ [mkNode (int_at 1002 7) (int_at 1003 71)
               (Some (mkNode (int_at 1005 8) (int_at 1006 80) None))]
       = <[Z.to_nat i := head']> (buckets chain_7_8)
    /\ int_type' = type chain_7_8 /\ 2 = length chain_7_8 /\ 1000 = fresh world0
    /\ entries head = l1 ++ (ek, old) :: l2
    /\ l2 <> []
    /\ Forall (differs (type chain_7_8) (int_at 1 7)) l1
    /\ call_cmp (type chain_7_8) ek (int_at 1 7) = Ok 0
    /\ entries head'
       = l1 ++ (ek, copy_of (addr_of old) (int_at 2 71)
                            (value_size (type chain_7_8))) :: l2.
Proof.
  exact (map_add_updates_entry
           chain_7_8 (int_at 1 7) (int_at 2 71) world0
           (mkMap int_type' 2
                  [mkNode (int_at 1002 7) (int_at 1003 71)
                          (Some (mkNode (int_at 1005 8) (int_at 1006 80) None))])
           (mkWorld 1000 []
                    [CallValueFree map_default_free (int_at 1003 70);
                     CallMemcpy (int_at 1003 70) (int_at 2 71) 4])
           eq_refl).
Defined.

Lemma add_walk_overflow_ok (t : MapTypeData) (k v : ptr) (head : MapNode)
      (w : world) (r : Z) (n' : MapNode) (w' : world) :
  add_walk t head k v w = Ok ((r, n'), w') -> overflow_ok head -> overflow_ok n'.
Proof. intros H Ho. apply (add_walk_shape _ _ _ _ _ _ _ _ H Ho). Qed.

(** Insert, then look up.  When [map_add] reports an update, the block
    that [map_get] returned for the key before the call is the block that
    [map_get] returns after it, now holding the first [value_size] bytes
    of the new value. *)
Theorem map_add_update_then_get
        (m : Map) (k v old : ptr) (w : world) (m' : Map) (w' : world) :
  Forall chain_inv (buckets m) ->
  map_get m k = Ok old ->
  map_add m k v w = Ok ((1, m'), w') ->
  map_get m' k = Ok (copy_of (addr_of old) v (value_size (type m))).
Proof.
  intros Hinv Hg H.
  pose proof (map_add_inv _ _ _ _ _ _ _ H Hinv) as Hinv'.
  apply map_add_Ok in H.
  destruct H as (h & i & head & head' & Hh & Hi & Hb & -> & [[E Hf]|[E Hw]]).
  - apply fill_head_code in Hf. destruct Hf; discriminate.
  - pose proof (Forall_lookup_1 _ _ _ _ Hinv Hb) as [_ Ho].
    pose proof (add_walk_overflow_ok _ _ _ _ _ _ _ _ Hw Ho) as Ho'.
    pose proof (add_walk_nonempty _ _ _ _ _ _ _ _ Hw E) as E'.
    apply add_walk_Ok1 in Hw.
    destruct Hw as (l1 & ek & old0 & l2 & Hp & Hne & Hd & Hc & _ & _ & Hp' & _).
    rewrite (map_get_entries m k h i head Hh Hi Hb Ho) in Hg.
    rewrite (entries_nonempty _ E), Hp, find_entry_skip in Hg by exact Hd.
    rewrite (find_entry_hit _ _ _ _ _ Hc) in Hg. inversion Hg; subst old0.
    assert (Hlt : (Z.to_nat i < List.length (buckets m))%nat)
      by (apply lookup_lt_Some in Hb; exact Hb).
    rewrite (map_get_entries _ k h i head'); cbn [type buckets]; auto.
    + rewrite (entries_nonempty _ E'), Hp', find_entry_skip by exact Hd.
      apply find_entry_hit. exact Hc.
    + rewrite bucket_index_insert. exact Hi.
    + apply list_lookup_insert_eq. exact Hlt.
Qed.

Lemma map_add_update_then_get_witness :
  map_get (mkMap int_type' 2
                 [mkNode (int_at 1002 7) (int_at 1003 71)
                         (Some (mkNode (int_at 1005 8) (int_at 1006 80) None))])
          (int_at 1 7)
  = Ok (int_at 1003 71).
Proof.
  refine (map_add_update_then_get
           chain_7_8 (int_at 1 7) (int_at 2 71) (int_at 1003 70) world0 _
           (mkWorld 1000 []
                    [CallValueFree map_default_free (int_at 1003 70);
                     CallMemcpy (int_at 1003 70) (int_at 2 71) 4])
           _ eq_refl eq_refl).
  repeat constructor. intros E. discriminate E.
Defined.

(** Insert, then look up.  When the key compares different from every
    entry of its bucket, the comparison function finds a copy of the key
    equal to the key, and [map_add] returns 0, then [map_get] finds the
    key and returns a block allocated during the insert that holds the
    first [value_size] bytes of the value. *)
Theorem map_add_new_key_then_get
        (m : Map) (k v : ptr) (w : world) (m' : Map) (w' : world)
        (h i : Z) (head : MapNode) :
  Forall chain_inv (buckets m) ->
  call_hash (type m) k = Ok h ->
  bucket_index m h = Ok i ->
  buckets m !! Z.to_nat i = Some head ->
  Forall (differs (type m) k) (entries head) ->
  (forall a, call_cmp (type m) (copy_of a k (key_size (type m))) k = Ok 0) ->
  map_add m k v w = Ok ((0, m'), w') ->
  exists b,
    fresh w <= b < fresh w'
    /\ map_get m' k = Ok (copy_of b v (value_size (type m))).
Proof.
  intros Hinv Hh Hi Hb Hd Hcopy H.
  pose proof (map_add_inv _ _ _ _ _ _ _ H Hinv) as Hinv'.
  apply map_add_Ok in H.
  destruct H as (h' & i' & head0 & head' & Hh' & Hi' & Hb' & -> & Hcase).
  rewrite Hh in Hh'. inversion Hh'; subst h'.
  rewrite Hi in Hi'. inversion Hi'; subst i'.
  rewrite Hb in Hb'. inversion Hb'; subst head0.
  assert (Hlt : (Z.to_nat i < List.length (buckets m))%nat)
    by (apply lookup_lt_Some in Hb; exact Hb).
  assert (Hb2 : <[Z.to_nat i := head']> (buckets m) !! Z.to_nat i = Some head')
    by (apply list_lookup_insert_eq; exact Hlt).
  pose proof (Forall_lookup_1 _ _ _ _ Hinv' Hb2) as [_ Ho'].
  pose proof (Forall_lookup_1 _ _ _ _ Hinv Hb) as [Hhead _].
  assert (He : exists a b,
             fresh w <= b < fresh w'
             /\ entries head'
                = entries head ++ [(copy_of a k (key_size (type m)),
                                    copy_of b v (value_size (type m)))]).
  { destruct Hcase as [[E Hf]|[E Hw]].
    - apply fill_head_Ok0 in Hf. destruct Hf as (Lk & Lv & -> & Hfr & _).
      exists (fresh w), (fresh w + 1). split; [lia|].
      unfold entries. rewrite E, (Hhead E). unfold is_empty. cbn [key value].
      destruct k; try discriminate Lk. reflexivity.
    - pose proof (add_walk_nonempty _ _ _ _ _ _ _ _ Hw E) as E'.
      apply add_walk_Ok0 in Hw. destruct Hw as (_ & _ & Hp & _ & Hfr & _).
      exists (fresh w + 1), (fresh w + 2). split; [lia|].
      rewrite (entries_nonempty _ E), (entries_nonempty _ E'). exact Hp. }
  destruct He as (a & b & Hrange & He). exists b. split; [exact Hrange|].
  rewrite (map_get_entries _ k h i head'); cbn [type buckets]; auto.
  - rewrite He, find_entry_skip by exact Hd. apply find_entry_hit. apply Hcopy.
  - rewrite bucket_index_insert. exact Hi.
Qed.

Lemma int_cmp_copy (a : addr) (n : Z) :
  call_cmp int_type' (copy_of a (int_at 1 n) 4) (int_at 1 n) = Ok 0.
Proof.
  assert (Hx : exists x, deref_int (int_at 1 n) = Ok x) by (eexists; reflexivity).
  destruct Hx as [x Hx].
  assert (Hy : deref_int (copy_of a (int_at 1 n) 4) = Ok x) by exact Hx.
  unfold call_cmp. cbn [key_cmp int_type']. unfold int_cmp.
  rewrite Hy, Hx, Z.sub_diag. reflexivity.
Qed.

Lemma map_add_new_key_then_get_witness :
  exists b,
    2000 <= b < 2003
    /\ map_get (mkMap int_type' 3
                  [mkNode (int_at 1002 7) (int_at 1003 70)
                     (Some (mkNode (int_at 1005 8) (int_at 1006 80)
                        (Some (mkNode (int_at 2001 9) (int_at 2002 90) None))))])
               (int_at 1 9)
       = Ok (copy_of b (int_at 2 90) 4).
Proof.
  refine (map_add_new_key_then_get
            chain_7_8 (int_at 1 9) (int_at 2 90) (mkWorld 2000 [] []) _
            (mkWorld 2003 []
               [CallMemcpy (Live 2001 []) (int_at 1 9) 4;
                CallMemcpy (Live 2002 []) (int_at 2 90) 4])
            9 0 _ _ eq_refl eq_refl eq_refl _ _ eq_refl).
  - repeat constructor. intros E. discriminate E.
  - repeat constructor; eexists; (split; [reflexivity|discriminate]).
  - intros a. apply int_cmp_copy.
Defined.

(** ** Failed allocations in map_add *)

Lemma malloc_None (w w' : world) :
  malloc w = Ok (None, w') ->
  In false (sched w) /\ fresh w' = fresh w /\ trace w' = trace w.
Proof.
  unfold malloc. destruct (sched w) as [|[|] s]; intros H; inversion H; subst.
  cbn. auto.
Qed.

Lemma malloc_Some_sched (w : world) (a : addr) (w' : world) :
  malloc w = Ok (Some a, w') -> In false (sched w') -> In false (sched w).
Proof.
  unfold malloc. destruct (sched w) as [|[|] s]; intros H; inversion H; subst;
    cbn; auto.
Qed.

Lemma is_null_Null (p : ptr) : is_null p = true -> p = Null.
Proof. destruct p; [reflexivity|discriminate|discriminate]. Qed.

Lemma new_overflow_None (t : MapTypeData) (k v : ptr) (w w' : world) :
  new_overflow t k v w = Ok (None, w') ->
  In false (sched w)
  /\ exists evs,
      trace w' = trace w ++ evs /\ Forall is_release evs
      /\ fresh w' = fresh w + Z.of_nat (List.length evs).
Proof.
  unfold new_overflow. intros H. run_inv H. destruct a as [n|].
  - pose proof (malloc_Some_sched _ _ _ Hstep) as S0.
    apply malloc_Some in Hstep. destruct Hstep as (_ & F0 & T0).
    run_inv H. destruct a as [ka|].
    + pose proof (malloc_Some_sched _ _ _ Hstep) as S1.
      apply malloc_Some in Hstep. destruct Hstep as (-> & F1 & T1).
      run_inv H. destruct a as [vb|].
      * run_inv H. apply ret_Ok in H. destruct H as [H _]. discriminate H.
      * apply malloc_None in Hstep. destruct Hstep as (S2 & F2 & T2).
        run_inv H. apply ret_Ok in H. destruct H as [_ ->].
        cbn [free] in Hstep. apply emit_Ok in Hstep, Hstep0. subst.
        cbn [fresh trace] in *.
        split; [auto|].
        exists [CallFree (Live (fresh w0) []); CallFreeNode].
        rewrite T2, T1, T0, <- app_assoc. cbn [List.length app].
        repeat split; [repeat constructor|lia].
    + apply malloc_None in Hstep. destruct Hstep as (S1 & F1 & T1).
      run_inv H. apply ret_Ok in H. destruct H as [_ ->].
      apply emit_Ok in Hstep. subst. cbn [fresh trace].
      split; [auto|]. exists [CallFreeNode]. rewrite T1, T0.
      repeat split; [repeat constructor|cbn; lia].
  - apply malloc_None in Hstep. destruct Hstep as (S0 & F0 & T0).
    apply ret_Ok in H. destruct H as [_ ->]. split; [exact S0|].
    exists []. rewrite app_nil_r. repeat split; auto. cbn. lia.
Qed.

Lemma fill_head_fail (t : MapTypeData) (node : MapNode) (k v : ptr)
      (w : world) (n' : MapNode) (w' : world) :
  fill_head t node k v w = Ok ((-1, n'), w') ->
  In false (sched w)
  /\ ((n' = mkNode Null (value node) (next node)
       /\ fresh w' = fresh w /\ trace w' = trace w)
      \/ (n' = mkNode (Freed (fresh w)) Null (next node)
          /\ fresh w' = fresh w + 1
          /\ trace w' = trace w ++ [CallFree (Live (fresh w) [])])).
Proof.
  unfold fill_head. intros H. run_inv H. destruct a as [ka|].
  - pose proof (malloc_Some_sched _ _ _ Hstep) as S0.
    apply malloc_Some in Hstep. destruct Hstep as (-> & F0 & T0).
    run_inv H. destruct a as [vb|].
    + run_inv H. apply ret_Ok in H. destruct H as [H _]. discriminate H.
    + apply malloc_None in Hstep. destruct Hstep as (S1 & F1 & T1).
      run_inv H. apply ret_Ok in H. destruct H as [H ->]. inversion H; subst n'.
      cbn [free] in Hstep. apply emit_Ok in Hstep. subst. cbn [fresh trace].
      split; [auto|]. right. rewrite F1, T1, T0. auto.
  - apply malloc_None in Hstep. destruct Hstep as (S0 & F0 & T0).
    apply ret_Ok in H. destruct H as [H ->]. inversion H; subst n'. auto.
Qed.

(** A [map_add] that returns -1 met a failed allocation and has given
    back every block it obtained during the call.  The table is as it was
    before the call, with one exception: when the bucket was empty and the
    value block could not be allocated, the head keeps the address of the
    key block that was just freed. *)
Theorem map_add_failure_state
        (m : Map) (k v : ptr) (w : world) (m' : Map) (w' : world) :
  map_add m k v w = Ok ((-1, m'), w') ->
  In false (sched w)
  /\ (exists evs,
         trace w' = trace w ++ evs /\ Forall is_release evs
         /\ fresh w' = fresh w + Z.of_nat (List.length evs))
  /\ (m' = m
      \/ exists i nx,
          buckets m !! i = Some (mkNode Null Null nx)
          /\ m' = mkMap (type m) (length m)
                        (<[i := mkNode (Freed (fresh w)) Null nx]> (buckets m))).
Proof.
  intros H. apply map_add_Ok in H.
  destruct H as (h & i & head & head' & Hh & Hi & Hb & -> & [[E Hf]|[E Hw]]);
    cbn [Z.eqb].
  - apply fill_head_fail in Hf. destruct Hf as (S & Hcase).
    unfold is_empty in E. apply andb_true_iff in E. destruct E as [Ek Ev].
    apply is_null_Null in Ek, Ev. destruct head as [hk hv nxt].
    cbn [key value next] in *. subst hk hv.
    split; [exact S|]. destruct Hcase as [(-> & F & T)|(-> & F & T)].
    + split.
      * exists []. rewrite app_nil_r. repeat split; auto. cbn. lia.
      * left. apply map_rebuild. exact Hb.
    + split.
      * exists [CallFree (Live (fresh w) [])]. repeat split; auto.
        repeat constructor.
      * right. exists (Z.to_nat i), nxt. auto.
  - assert (Hn : head' = head)
      by (apply (add_walk_fail _ _ _ _ _ _ _ _ Hw); discriminate).
    subst head'.
    assert (Hnone : new_overflow (type m) k v w = Ok (None, w')).
    { clear - Hw. revert w w' Hw.
      induction head as [hk hv|hk hv nx IH] using MapNode_chain_ind;
        intros w w' Hw; cbn [add_walk next key value] in Hw; run_inv Hw.
      - destruct a; apply ret_Ok in Hw; destruct Hw as [Hw ->];
          [discriminate Hw|exact Hstep].
      - apply lift_Ok in Hstep. destruct Hstep as [_ ->].
        destruct (a =? 0); run_inv Hw; apply ret_Ok in Hw;
          destruct Hw as [Hw ->]; [discriminate Hw|].
        destruct a0 as [r0 n0]. cbn [fst snd] in Hw. inversion Hw; subst.
        apply IH. exact Hstep. }
    apply new_overflow_None in Hnone. destruct Hnone as [S Hev].
    split; [exact S|]. split; [exact Hev|]. left. apply map_rebuild. exact Hb.
Qed.

Lemma map_add_failure_state_witness :
  In false [true; false; true]
  /\ (exists evs,
         [CallFreeNode] = [] ++ evs /\ Forall is_release evs
         /\ 1001 = 1000 + Z.of_nat (List.length evs))
  /\ (chain_7_8 = chain_7_8
      \/ exists i nx,
          buckets chain_7_8 !! i = Some (mkNode Null Null nx)
          /\ chain_7_8
             = mkMap (type chain_7_8) (length chain_7_8)
                     (<[i := mkNode (Freed 1000) Null nx]> (buckets chain_7_8))).
Proof.
  exact (map_add_failure_state
           chain_7_8 (int_at 1 9) (int_at 2 90)
           (mkWorld 1000 [true; false; true] [])
           chain_7_8 (mkWorld 1001 [true] [CallFreeNode]) eq_refl).
Defined.

(** ** What map_remove does to a chain *)

Lemma matches_true (t : MapTypeData) (node : MapNode) (k : ptr) :
  matches t node k = Ok true ->
  is_null (key node) = false /\ call_cmp t (key node) k = Ok 0.
Proof.
  unfold matches. destruct (is_null (key node)); [discriminate|].
  destruct (call_cmp t (key node) k) as [c|e]; [|discriminate].
  intros H. inversion H as [E]. apply Z.eqb_eq in E. subst c. auto.
Qed.

Lemma matches_false (t : MapTypeData) (node : MapNode) (k : ptr) :
  matches t node k = Ok false -> misses t k (key node, value node).
Proof.
  unfold matches, misses, differs. cbn [fst].
  destruct (is_null (key node)); [auto|].
  destruct (call_cmp t (key node) k) as [c|e]; [|discriminate].
  intros H. inversion H as [E]. apply Z.eqb_neq in E. right. eauto.
Qed.

Lemma free_Ok (p : ptr) (w : world) (u : unit) (w' : world) :
  free p w = Ok (u, w') ->
  w' = mkWorld (fresh w) (sched w) (trace w ++ [CallFree p]).
Proof. destruct p; cbn [free]; try discriminate; apply emit_Ok. Qed.

Lemma dispose_entry_Ok (t : MapTypeData) (node : MapNode)
      (w : world) (u : unit) (w' : world) :
  dispose_entry t node w = Ok (u, w') ->
  exists kf vf,
    key_free t = Some kf /\ value_free t = Some vf
    /\ w' = mkWorld (fresh w) (sched w)
                    (trace w ++ [CallKeyFree kf (key node);
                                 CallValueFree vf (value node);
                                 CallFree (key node); CallFree (value node)]).
Proof.
  unfold dispose_entry, call_key_free. intros H. run_inv H.
  destruct (key_free t) as [kf|]; [|discriminate].
  apply emit_Ok in Hstep. apply call_value_free_Ok in Hstep0.
  destruct Hstep0 as (vf & Hvf & E0). apply free_Ok in Hstep1, H.
  exists kf, vf. subst. cbn [fresh sched trace].
  repeat rewrite <- app_assoc. auto.
Qed.

Lemma remove_walk_hit (t : MapTypeData) (k : ptr) (node : MapNode) :
  forall w o w',
    remove_walk t node k w = Ok ((true, o), w') ->
    exists l1 ek ev l2 kf vf,
      pairs node = l1 ++ (ek, ev) :: l2
      /\ Forall (misses t k) l1
      /\ is_null ek = false /\ call_cmp t ek k = Ok 0
      /\ opairs o = l1 ++ l2
      /\ key_free t = Some kf /\ value_free t = Some vf
      /\ w' = mkWorld (fresh w) (sched w)
                      (trace w ++ [CallKeyFree kf ek; CallValueFree vf ev;
                                   CallFree ek; CallFree ev; CallFreeNode]).
Proof.
  induction node as [hk hv|hk hv nx IH] using MapNode_chain_ind;
    intros w o w' H; cbn [remove_walk next key value] in H; run_inv H;
    apply lift_Ok in Hstep; destruct Hstep as [Hm ->]; destruct a.
  - run_inv H. apply ret_Ok in H. destruct H as [H ->]. inversion H; subst o.
    apply matches_true in Hm. destruct Hm as [Hk Hc].
    apply dispose_entry_Ok in Hstep. destruct Hstep as (kf & vf & Hkf & Hvf & ->).
    apply emit_Ok in Hstep0. subst. cbn [fresh sched trace key value] in *.
    exists [], hk, hv, [], kf, vf. rewrite <- app_assoc.
    repeat split; auto.
  - apply ret_Ok in H. destruct H as [H _]. inversion H.
  - run_inv H. apply ret_Ok in H. destruct H as [H ->]. inversion H; subst o.
    apply matches_true in Hm. destruct Hm as [Hk Hc].
    apply dispose_entry_Ok in Hstep. destruct Hstep as (kf & vf & Hkf & Hvf & ->).
    apply emit_Ok in Hstep0. subst. cbn [fresh sched trace key value] in *.
    exists [], hk, hv, (pairs nx), kf, vf. rewrite <- app_assoc.
    repeat split; auto.
  - run_inv H. apply ret_Ok in H. destruct H as [H ->].
    destruct a as [hit0 o0]. cbn [fst snd] in H. inversion H; subst hit0 o.
    destruct (IH _ _ _ Hstep)
      as (l1 & ek & ev & l2 & kf & vf & Hp & Hms & Hk & Hc & Ho & Hkf & Hvf & ->).
    apply matches_false in Hm. cbn [key value] in Hm.
    exists ((hk, hv) :: l1), ek, ev, l2, kf, vf.
    rewrite pairs_link, Hp. repeat split; auto.
    cbn [opairs]. destruct o0 as [n0|]; cbn [opairs] in Ho.
    + rewrite pairs_link, Ho. reflexivity.
    + change (((hk, hv) :: l1) ++ l2) with ((hk, hv) :: (l1 ++ l2)).
      rewrite <- Ho. reflexivity.
Qed.

Lemma remove_walk_miss (t : MapTypeData) (k : ptr) (node : MapNode) :
  forall w o w',
    remove_walk t node k w = Ok ((false, o), w') ->
    o = Some node /\ w' = w
    /\ Forall (fun n => matches t n k = Ok false) (chain_nodes node).
Proof.
  induction node as [hk hv|hk hv nx IH] using MapNode_chain_ind;
    intros w o w' H; cbn [remove_walk next key value] in H; run_inv H;
    apply lift_Ok in Hstep; destruct Hstep as [Hm ->]; destruct a.
  - run_inv H. apply ret_Ok in H. destruct H as [H _]. inversion H.
  - apply ret_Ok in H. destruct H as [H ->]. inversion H; subst o.
    repeat split; auto. repeat constructor. exact Hm.
  - run_inv H. apply ret_Ok in H. destruct H as [H _]. inversion H.
  - run_inv H. apply ret_Ok in H. destruct H as [H ->].
    destruct a as [hit0 o0]. cbn [fst snd] in H. inversion H; subst hit0 o.
    destruct (IH _ _ _ Hstep) as (-> & -> & Hall).
    repeat split; auto. unfold chain_nodes. cbn [overflow_nodes next].
    constructor; [exact Hm|exact Hall].
Qed.

Lemma pairs_opairs (hk hv : ptr) (o : option MapNode) :
  pairs (mkNode hk hv o) = (hk, hv) :: opairs o.
Proof. destruct o; reflexivity. Qed.

Lemma remove_head_hit (t : MapTypeData) (k : ptr) (head : MapNode)
      (w : world) (head' : MapNode) (w' : world) :
  chain_inv head ->
  remove_head t head k w = Ok ((true, head'), w') ->
  exists l1 ek ev l2 kf vf,
    entries head = l1 ++ (ek, ev) :: l2
    /\ Forall (misses t k) l1
    /\ call_cmp t ek k = Ok 0
    /\ entries head' = l1 ++ l2
    /\ key_free t = Some kf /\ value_free t = Some vf
    /\ w' = mkWorld (fresh w) (sched w)
                    (trace w ++ [CallKeyFree kf ek; CallValueFree vf ev;
                                 CallFree ek; CallFree ev]
                             ++ match l1 ++ l2 with
                                | [] => []
                                | _ :: _ => [CallFreeNode]
                                end).
Proof.
  intros [Hh Ho] H. unfold remove_head in H. run_inv H.
  apply lift_Ok in Hstep. destruct Hstep as [Hm ->].
  destruct head as [hk hv nxt]. cbn [key value next] in *. destruct a.
  - apply matches_true in Hm. cbn [key] in Hm. destruct Hm as [Hk Hc].
    run_inv H.
    apply dispose_entry_Ok in Hstep. destruct Hstep as (kf & vf & Hkf & Hvf & ->).
    cbn [key value] in *.
    assert (E : entries (mkNode hk hv nxt) = (hk, hv) :: opairs nxt).
    { unfold entries, is_empty. cbn [key value]. rewrite Hk.
      destruct nxt; reflexivity. }
    destruct nxt as [nx|].
    + run_inv H. apply emit_Ok in Hstep. apply ret_Ok in H.
      destruct H as [H ->]. inversion H; subst head' w0.
      cbn [fresh sched trace].
      unfold overflow_ok in Ho. cbn [overflow_nodes next] in Ho.
      apply Forall_cons in Ho. destruct Ho as [Hnk _].
      assert (En : entries nx = pairs nx).
      { apply entries_nonempty. unfold is_empty. rewrite Hnk. reflexivity. }
      exists [], hk, hv, (pairs nx), kf, vf. rewrite E, En.
      repeat split; auto.
      cbn [app]. destruct (pairs nx) eqn:Ep; [destruct nx; discriminate|].
      rewrite <- app_assoc. reflexivity.
    + apply ret_Ok in H. destruct H as [H ->]. inversion H; subst head'.
      exists [], hk, hv, [], kf, vf. rewrite E.
      repeat split; auto.
  - destruct nxt as [nx|].
    + run_inv H. apply ret_Ok in H. destruct H as [H ->].
      destruct a as [hit0 o0]. cbn [fst snd] in H. inversion H; subst hit0 head'.
      destruct (remove_walk_hit _ _ _ _ _ _ Hstep)
        as (l1 & ek & ev & l2 & kf & vf & Hp & Hms & Hk & Hc & Hop & Hkf & Hvf & ->).
      assert (Ene : is_null hk && is_null hv = false).
      { destruct (is_null hk && is_null hv) eqn:E; [|reflexivity].
        specialize (Hh E). discriminate Hh. }
      apply matches_false in Hm. cbn [key value] in Hm.
      exists ((hk, hv) :: l1), ek, ev, l2, kf, vf.
      rewrite !entries_nonempty by exact Ene.
      rewrite !pairs_opairs. cbn [opairs].
      rewrite Hp, Hop. repeat split; auto.
    + apply ret_Ok in H. destruct H as [H _]. inversion H.
Qed.

Lemma remove_head_miss (t : MapTypeData) (k : ptr) (head : MapNode)
      (w : world) (head' : MapNode) (w' : world) :
  remove_head t head k w = Ok ((false, head'), w') ->
  head' = head /\ w' = w
  /\ Forall (fun n => matches t n k = Ok false) (chain_nodes head).
Proof.
  intros H. unfold remove_head in H. run_inv H.
  apply lift_Ok in Hstep. destruct Hstep as [Hm ->].
  destruct head as [hk hv nxt]. cbn [key value next] in *. destruct a.
  - run_inv H. destruct nxt; [run_inv H|];
      apply ret_Ok in H; destruct H as [H _]; inversion H.
  - destruct nxt as [nx|].
    + run_inv H. apply ret_Ok in H. destruct H as [H ->].
      destruct a as [hit0 o0]. cbn [fst snd] in H. inversion H; subst hit0 head'.
      destruct (remove_walk_miss _ _ _ _ _ _ Hstep) as (-> & -> & Hall).
      repeat split; auto. unfold chain_nodes. cbn [overflow_nodes next].
      constructor; [exact Hm|exact Hall].
    + apply ret_Ok in H. destruct H as [H ->]. inversion H; subst head'.
      repeat split; auto. repeat constructor. exact Hm.
Qed.

Lemma map_remove_Ok (m : Map) (k : ptr) (w : world) (r : Z) (m' : Map) (w' : world) :
  map_remove m k w = Ok ((r, m'), w') ->
  exists h i head hit head',
    call_hash (type m) k = Ok h
    /\ bucket_index m h = Ok i
    /\ buckets m !! Z.to_nat i = Some head
    /\ remove_head (type m) head k w = Ok ((hit, head'), w')
    /\ ((hit = true /\ r = 0
         /\ m' = mkMap (type m) (wrap (length m - 1))
                       (<[Z.to_nat i := head']> (buckets m)))
        \/ (hit = false /\ r = -1 /\ m' = m)).
Proof.
  unfold map_remove. intros H. run_inv H.
  apply lift_Ok in Hstep. destruct Hstep as [Hh ->].
  apply lift_Ok in Hstep0. destruct Hstep0 as [Hi ->].
  destruct (buckets m !! Z.to_nat a0) as [head|] eqn:Hb; [|discriminate].
  run_inv H. destruct a1 as [hit head']. cbn [fst snd] in H.
  exists a, a0, head, hit, head'.
  destruct hit; apply ret_Ok in H; destruct H as [H ->]; inversion H; subst;
    repeat split; auto.
Qed.

(** A [map_remove] that returns 0 has taken exactly one entry out of the
    key's bucket: the first one whose key is not null and compares equal.
    The entries before and behind it keep their order, the other buckets
    are untouched, the length field is one less, nothing is allocated, and
    the calls made are the two disposers and [free] on the key and value
    blocks of that entry, followed by [free] on one node unless the bucket
    is now empty. *)
Theorem map_remove_removes_first_match
        (m : Map) (k : ptr) (w : world) (m' : Map) (w' : world) :
  Forall chain_inv (buckets m) ->
  map_remove m k w = Ok ((0, m'), w') ->
  exists h i head head' l1 ek ev l2 kf vf,
    call_hash (type m) k = Ok h
    /\ bucket_index m h = Ok i
    /\ buckets m !! Z.to_nat i = Some head
    /\ buckets m' = <[Z.to_nat i := head']> (buckets m)
    /\ type m' = type m /\ length m' = wrap (length m - 1)
    /\ entries head = l1 ++ (ek, ev) :: l2
    /\ Forall (misses (type m) k) l1
    /\ call_cmp (type m) ek k = Ok 0
    /\ entries head' = l1 ++ l2
    /\ key_free (type m) = Some kf /\ value_free (type m) = Some vf
    /\ fresh w' = fresh w
    /\ trace w' = trace w ++ [CallKeyFree kf ek; CallValueFree vf ev;
                              CallFree ek; CallFree ev]
                          ++ match l1 ++ l2 with
                             | [] => []
                             | _ :: _ => [CallFreeNode]
                             end.
Proof.
  intros Hinv H. apply map_remove_Ok in H.
  destruct H as (h & i & head & hit & head' & Hh & Hi & Hb & Hr & Hcase).
  destruct Hcase as [(-> & _ & ->)|(_ & E & _)]; [|discriminate E].
  pose proof (Forall_lookup_1 _ _ _ _ Hinv Hb) as Hc.
  destruct (remove_head_hit _ _ _ _ _ _ Hc Hr)
    as (l1 & ek & ev & l2 & kf & vf & He & Hms & Hcmp & He' & Hkf & Hvf & ->).
  exists h, i, head, head', l1, ek, ev, l2, kf, vf.
  repeat split; auto.
Qed.

Lemma map_remove_removes_first_match_witness :
  exists h i head head' l1 ek ev l2 kf vf,
    call_hash (type chain_7_8) (int_at 1 8) = Ok h
    /\ bucket_index chain_7_8 h = Ok i
    /\ buckets chain_7_8 !! Z.to_nat i = Some head
    /\ [mkNode (int_at 1002 7) (int_at 1003 70) None]
       = <[Z.to_nat i := head']> (buckets chain_7_8)
    /\ int_type' = type chain_7_8 /\ 1 = wrap (length chain_7_8 - 1)
    /\ entries head = l1 ++ (ek, ev) :: l2
    /\ Forall (misses (type chain_7_8) (int_at 1 8)) l1
    /\ call_cmp (type chain_7_8) ek (int_at 1 8) = Ok 0
    /\ entries head' = l1 ++ l2
    /\ key_free (type chain_7_8) = Some kf
    /\ value_free (type chain_7_8) = Some vf
    /\ 1000 = fresh world0
    /\ [CallKeyFree map_default_free (int_at 1005 8);
        CallValueFree map_default_free (int_at 1006 80);
        CallFree (int_at 1005 8); CallFree (int_at 1006 80); CallFreeNode]
       = trace world0 ++ [CallKeyFree kf ek; CallValueFree vf ev;
                          CallFree ek; CallFree ev]
                      ++ match l1 ++ l2 with
                         | [] => []
                         | _ :: _ => [CallFreeNode]
                         end.
Proof.
  refine (map_remove_removes_first_match
            chain_7_8 (int_at 1 8) world0
            (mkMap int_type' 1 [mkNode (int_at 1002 7) (int_at 1003 70) None])
            (mkWorld 1000 []
               [CallKeyFree map_default_free (int_at 1005 8);
                CallValueFree map_default_free (int_at 1006 80);
                CallFree (int_at 1005 8); CallFree (int_at 1006 80);
                CallFreeNode])
            _ eq_refl).
  repeat constructor. intros E. discriminate E.
Defined.

(** A [map_remove] that does not return 0 returns -1, has made no call
    and has changed nothing; no node of the key's bucket has a non-null
    key that compares equal to the key. *)
Theorem map_remove_miss_unchanged
        (m : Map) (k : ptr) (w : world) (r : Z) (m' : Map) (w' : world) :
  map_remove m k w = Ok ((r, m'), w') ->
  r <> 0 ->
  r = -1 /\ m' = m /\ w' = w
  /\ exists h i head,
      call_hash (type m) k = Ok h /\ bucket_index m h = Ok i
      /\ buckets m !! Z.to_nat i = Some head
      /\ Forall (fun n => matches (type m) n k = Ok false) (chain_nodes head).
Proof.
  intros H Hr. apply map_remove_Ok in H.
  destruct H as (h & i & head & hit & head' & Hh & Hi & Hb & Hrun & Hcase).
  destruct Hcase as [(_ & E & _)|(-> & -> & ->)]; [congruence|].
  destruct (remove_head_miss _ _ _ _ _ _ Hrun) as (_ & -> & Hall).
  repeat split; auto. exists h, i, head. auto.
Qed.

Lemma map_remove_miss_unchanged_witness :
  -1 = -1 /\ chain_7_8 = chain_7_8 /\ world0 = world0
  /\ exists h i head,
      call_hash (type chain_7_8) (int_at 1 9) = Ok h
      /\ bucket_index chain_7_8 h = Ok i
      /\ buckets chain_7_8 !! Z.to_nat i = Some head
      /\ Forall (fun n => matches (type chain_7_8) n (int_at 1 9) = Ok false)
                (chain_nodes head).
Proof.
  refine (map_remove_miss_unchanged chain_7_8 (int_at 1 9) world0 (-1)
                                    chain_7_8 world0 eq_refl _).
  discriminate.
Defined.

Lemma find_entry_without (t : MapTypeData) (k : ptr) (e : ptr * ptr)
      (l1 l2 : list (ptr * ptr)) :
  differs t k e -> find_entry t k (l1 ++ e :: l2) = find_entry t k (l1 ++ l2).
Proof.
  intros (c & Hc & Hne). induction l1 as [|[ek ev] l1 IH]; cbn [app find_entry].
  - destruct e as [ek ev]. cbn [fst] in Hc. rewrite Hc.
    apply Z.eqb_neq in Hne. rewrite Hne. reflexivity.
  - rewrite IH. reflexivity.
Qed.

(** Remove, then look up another key.  After a [map_remove] that returned
    0, the lookup of any key that the comparison function tells apart from
    the key of the removed entry answers as it did before: removing an
    entry, at the head of a chain or inside it, hides no other entry. *)
Theorem map_remove_keeps_other_keys
        (m : Map) (k : ptr) (w : world) (m' : Map) (w' : world) :
  Forall chain_inv (buckets m) ->
  map_remove m k w = Ok ((0, m'), w') ->
  exists ek ev kf,
    key_free (type m) = Some kf
    /\ In (CallKeyFree kf ek) (trace w')
    /\ call_cmp (type m) ek k = Ok 0
    /\ forall k', differs (type m) k' (ek, ev) -> map_get m' k' = map_get m k'.
Proof.
  intros Hinv H.
  pose proof (map_remove_inv _ _ _ _ _ _ H Hinv) as Hinv'.
  apply map_remove_Ok in H.
  destruct H as (h & i & head & hit & head' & Hh & Hi & Hb & Hr & Hcase).
  destruct Hcase as [(-> & _ & ->)|(_ & E & _)]; [|discriminate E].
  pose proof (Forall_lookup_1 _ _ _ _ Hinv Hb) as Hc.
  destruct (remove_head_hit _ _ _ _ _ _ Hc Hr)
    as (l1 & ek & ev & l2 & kf & vf & He & Hms & Hcmp & He' & Hkf & Hvf & ->).
  exists ek, ev, kf. split; [exact Hkf|]. split.
  { cbn [trace]. apply in_or_app. right. apply in_or_app. left. left. reflexivity. }
  split; [exact Hcmp|]. intros k' Hd.
  assert (Hlt : (Z.to_nat i < List.length (buckets m))%nat)
    by (apply lookup_lt_Some in Hb; exact Hb).
  unfold map_get. cbn [type buckets].
  destruct (call_hash (type m) k') as [h'|e]; [|reflexivity].
  rewrite bucket_index_insert.
  destruct (bucket_index m h') as [i'|e]; [|reflexivity].
  destruct (decide (Z.to_nat i = Z.to_nat i')) as [Ei|Ei].
  - rewrite <- Ei, Hb, list_lookup_insert_eq by exact Hlt.
    assert (Hb2 : <[Z.to_nat i := head']> (buckets m) !! Z.to_nat i = Some head')
      by (apply list_lookup_insert_eq; exact Hlt).
    pose proof (Forall_lookup_1 _ _ _ _ Hinv' Hb2) as [_ Ho'].
    destruct Hc as [_ Ho].
    rewrite !get_walk_entries by assumption.
    rewrite He, He'. symmetry. apply find_entry_without. exact Hd.
  - rewrite list_lookup_insert_ne by exact Ei. reflexivity.
Qed.

Lemma map_remove_keeps_other_keys_witness :
  exists ek ev kf,
    key_free (type chain_7_8) = Some kf
    /\ In (CallKeyFree kf ek)
          [CallKeyFree map_default_free (int_at 1005 8);
           CallValueFree map_default_free (int_at 1006 80);
           CallFree (int_at 1005 8); CallFree (int_at 1006 80); CallFreeNode]
    /\ call_cmp (type chain_7_8) ek (int_at 1 8) = Ok 0
    /\ forall k', differs (type chain_7_8) k' (ek, ev) ->
                  map_get (mkMap int_type' 1
                                 [mkNode (int_at 1002 7) (int_at 1003 70) None]) k'
                  = map_get chain_7_8 k'.
Proof.
  refine (map_remove_keeps_other_keys
            chain_7_8 (int_at 1 8) world0
            (mkMap int_type' 1 [mkNode (int_at 1002 7) (int_at 1003 70) None])
            (mkWorld 1000 []
               [CallKeyFree map_default_free (int_at 1005 8);
                CallValueFree map_default_free (int_at 1006 80);
                CallFree (int_at 1005 8); CallFree (int_at 1006 80);
                CallFreeNode])
            _ eq_refl).
  repeat constructor. intros E. discriminate E.
Defined.

(** ** map_optimize and buckets never written to *)

Lemma steady_bind {A B} (c : M A) (f : A -> M B) :
  steady c -> (forall a, steady (f a)) -> steady (bind c f).
Proof.
  intros Hc Hf w b w' Hs H. apply bind_Ok in H.
  destruct H as (a & w1 & H1 & H2). eapply Hf; [|exact H2]. eapply Hc; eauto.
Qed.

Lemma steady_ret {A} (a : A) : steady (ret a).
Proof. intros w b w' Hs H. apply ret_Ok in H. destruct H as [_ ->]. exact Hs. Qed.

Lemma steady_lift {A} (r : res A) : steady (lift r).
Proof. intros w b w' Hs H. apply lift_Ok in H. destruct H as [_ ->]. exact Hs. Qed.

Lemma steady_crash {A} (e : fault) : steady (@crash A e).
Proof. intros w b w' _ H. discriminate H. Qed.

Lemma steady_emit (e : event) : steady (emit e).
Proof. intros w b w' Hs H. apply emit_Ok in H. subst. exact Hs. Qed.

Lemma steady_malloc : steady malloc.
Proof.
  intros w o w' Hs H. unfold malloc in H. rewrite Hs in H.
  inversion H. reflexivity.
Qed.

Lemma steady_free (p : ptr) : steady (free p).
Proof. destruct p; cbn [free]; auto using steady_emit, steady_crash. Qed.

Lemma steady_memcpy (dst src : ptr) (n : Z) : steady (memcpy dst src n).
Proof.
  intros w p w' Hs H. apply memcpy_Ok in H.
  destruct H as (? & ? & ? & ? & _ & _ & _ & ->). exact Hs.
Qed.

Lemma steady_call_value_free (t : MapTypeData) (p : ptr) :
  steady (call_value_free t p).
Proof.
  unfold call_value_free. destruct (value_free t);
    auto using steady_emit, steady_crash.
Qed.

Create HintDb steady.
#[local] Hint Resolve steady_ret steady_lift steady_crash steady_emit
  steady_malloc steady_free steady_memcpy steady_call_value_free : steady.

Ltac steady_step :=
  repeat first
    [ apply steady_bind; [|intros ?]
    | solve [auto with steady]
    | match goal with
      | |- steady (match ?x with _ => _ end) => destruct x
      | |- steady (if ?x then _ else _) => destruct x
      end ].

Lemma steady_fill_head (t : MapTypeData) (node : MapNode) (k v : ptr) :
  steady (fill_head t node k v).
Proof. unfold fill_head. steady_step. Qed.

Lemma steady_new_overflow (t : MapTypeData) (k v : ptr) :
  steady (new_overflow t k v).
Proof. unfold new_overflow. steady_step. Qed.

Lemma steady_add_walk (t : MapTypeData) (k v : ptr) (node : MapNode) :
  steady (add_walk t node k v).
Proof.
  induction node as [hk hv|hk hv nx IH] using MapNode_chain_ind;
    cbn [add_walk next key value].
  - apply steady_bind; [apply steady_new_overflow|]. intros a. steady_step.
  - apply steady_bind; [auto with steady|]. intros c.
    destruct (c =? 0); [steady_step|].
    apply steady_bind; [exact IH|]. intros r. steady_step.
Qed.

Lemma steady_map_add (m : Map) (k v : ptr) : steady (map_add m k v).
Proof.
  unfold map_add.
  apply steady_bind; [auto with steady|]. intros h.
  apply steady_bind; [auto with steady|]. intros i.
  destruct (buckets m !! Z.to_nat i) as [node|]; [|auto with steady].
  destruct (is_null (key node) && is_null (value node));
    (apply steady_bind; [|intros r; auto with steady]).
  - apply steady_fill_head.
  - apply steady_add_walk.
Qed.

Lemma steady_map_new (t : MapTypeData) (count : Z) : steady (map_new t count).
Proof. unfold map_new. steady_step. Qed.

Lemma steady_readd_chain (node : MapNode) :
  forall new_map, steady (readd_chain new_map node).
Proof.
  induction node as [hk hv|hk hv nx IH] using MapNode_chain_ind;
    intros [nm|]; cbn [readd_chain next key value]; auto with steady;
    (apply steady_bind; [apply steady_map_add|]); intros r; auto with steady.
Qed.

(** With an allocator that cannot fail, [map_add] of a null key and a
    null value never returns. *)
Lemma add_walk_null_faults (t : MapTypeData) (node : MapNode) :
  forall w, sched w = [] -> exists e, add_walk t node Null Null w = Fault e.
Proof.
  induction node as [hk hv|hk hv nx IH] using MapNode_chain_ind;
    intros w Hs; cbn [add_walk next key value].
  - unfold bind, new_overflow, bind, malloc. rewrite Hs.
    cbn [sched fresh trace memcpy crash]. eauto.
  - unfold bind at 1, lift.
    destruct (call_cmp t hk Null) as [c|e]; [|eauto].
    destruct (c =? 0).
    + unfold bind, call_value_free.
      destruct (value_free t); [|cbn; eauto].
      cbn [emit]. destruct hv; cbn; eauto.
    + unfold bind. destruct (IH w Hs) as [e ->]. eauto.
Qed.

Lemma map_add_null_faults (m : Map) (w : world) :
  sched w = [] -> exists e, map_add m Null Null w = Fault e.
Proof.
  intros Hs. unfold map_add, bind, lift.
  destruct (call_hash (type m) Null) as [h|e]; [|eauto].
  destruct (bucket_index m h) as [i|e]; [|eauto].
  destruct (buckets m !! Z.to_nat i) as [node|]; [|cbn; eauto].
  destruct (is_null (key node) && is_null (value node)).
  - unfold fill_head, bind, malloc. rewrite Hs.
    cbn [sched fresh trace memcpy crash]. eauto.
  - destruct (add_walk_null_faults (type m) node w Hs) as [e ->]. eauto.
Qed.

Lemma readd_empty_faults (new_map : option Map) (b : MapNode) (w : world) :
  sched w = [] -> is_empty b = true ->
  exists e, readd_chain new_map b w = Fault e.
Proof.
  intros Hs E. unfold is_empty in E. apply andb_true_iff in E.
  destruct E as [Ek Ev]. apply is_null_Null in Ek, Ev.
  destruct b as [hk hv nxt]. cbn [key value] in *. subst hk hv.
  destruct new_map as [nm|]; destruct nxt; cbn [readd_chain next key value];
    try (cbn; eauto; fail);
    unfold bind; destruct (map_add_null_faults nm w Hs) as [e ->]; eauto.
Qed.

Lemma for_buckets_readd_faults (bs : list MapNode) (b : MapNode) :
  In b bs -> is_empty b = true ->
  forall new_map w, sched w = [] ->
                    exists e, for_buckets readd_chain bs new_map w = Fault e.
Proof.
  induction bs as [|b0 bs IH]; intros Hin E new_map w Hs; [destruct Hin|].
  cbn [for_buckets]. unfold bind at 1.
  destruct (readd_chain new_map b0 w) as [[nm' w1]|e] eqn:Hr; [|eauto].
  destruct Hin as [->|Hin].
  - destruct (readd_empty_faults new_map b w Hs E) as [e He]. congruence.
  - apply (IH Hin E). eapply steady_readd_chain; eauto.
Qed.

(** With an allocator that cannot fail, [map_optimize] never returns when
    some bucket of the table was never written to (or was emptied again):
    it hands the null key and null value of that head to [map_add], and
    that call reads through a null pointer. *)
Theorem map_optimize_empty_bucket_never_returns
        (m : Map) (b : MapNode) (w : world) :
  sched w = [] -> In b (buckets m) -> is_empty b = true ->
  exists e, map_optimize m w = Fault e.
Proof.
  intros Hs Hin E. unfold map_optimize. unfold bind at 1.
  destruct (map_new (type m) (new_buckets_count m) w) as [[nm w1]|e] eqn:Hn;
    [|eauto].
  assert (Hs1 : sched w1 = []) by (eapply steady_map_new; eauto).
  unfold bind at 1.
  destruct (for_buckets_readd_faults _ _ Hin E nm w1 Hs1) as [e ->]. eauto.
Qed.

Lemma map_optimize_empty_bucket_never_returns_witness :
  exists e, map_optimize two_bucket_table world0 = Fault e.
Proof.
  apply (map_optimize_empty_bucket_never_returns two_bucket_table zero_node world0).
  - reflexivity.
  - right. left. reflexivity.
  - reflexivity.
Defined.

(** ** The length field *)

Lemma sum_Z_app (l1 l2 : list Z) : sum_Z (l1 ++ l2) = sum_Z l1 + sum_Z l2.
Proof.
  unfold sum_Z. induction l1 as [|x l1 IH]; cbn [app fold_right]; lia.
Qed.

Lemma live_pairs_app (l1 l2 : list (ptr * ptr)) :
  live_pairs (l1 ++ l2) = live_pairs l1 + live_pairs l2.
Proof. unfold live_pairs. rewrite map_app. apply sum_Z_app. Qed.

Lemma live_pairs_cons (e : ptr * ptr) (l : list (ptr * ptr)) :
  live_pairs (e :: l) = (if is_live (fst e) then 1 else 0) + live_pairs l.
Proof. reflexivity. Qed.

Lemma sum_Z_insert {A} (f : A -> Z) (l : list A) (i : nat) (x y : A) :
  l !! i = Some x ->
  sum_Z (map f (<[i := y]> l)) = sum_Z (map f l) - f x + f y.
Proof.
  unfold sum_Z. revert i.
  induction l as [|a l IH]; intros [|i] H; try discriminate H.
  - inversion H; subst.
    change (<[0%nat := y]> (x :: l)) with (y :: l).
    cbn [map fold_right]. lia.
  - change (l !! i = Some x) in H. specialize (IH i H).
    change (<[S i := y]> (a :: l)) with (a :: <[i := y]> l).
    cbn [map fold_right]. rewrite IH. lia.
Qed.

Lemma dispose_entry_live (t : MapTypeData) (node : MapNode)
      (w : world) (u : unit) (w' : world) :
  dispose_entry t node w = Ok (u, w') ->
  is_null (key node) = false -> is_live (key node) = true.
Proof.
  unfold dispose_entry. intros H Hk. run_inv H.
  destruct (key node); [discriminate Hk|reflexivity|discriminate Hstep1].
Qed.

Lemma remove_walk_hit_live (t : MapTypeData) (k : ptr) (node : MapNode) :
  forall w o w',
    remove_walk t node k w = Ok ((true, o), w') ->
    live_pairs (opairs o) = live_pairs (pairs node) - 1.
Proof.
  induction node as [hk hv|hk hv nx IH] using MapNode_chain_ind;
    intros w o w' H; cbn [remove_walk next key value] in H; run_inv H;
    apply lift_Ok in Hstep; destruct Hstep as [Hm ->]; destruct a.
  - run_inv H. apply ret_Ok in H. destruct H as [H _]. inversion H; subst o.
    apply matches_true in Hm. destruct Hm as [Hk _].
    pose proof (dispose_entry_live _ _ _ _ _ Hstep Hk) as L. cbn [key] in L.
    unfold pairs, chain_nodes. cbn [overflow_nodes next map key value opairs].
    rewrite live_pairs_cons. cbn [fst]. rewrite L. unfold live_pairs. cbn. lia.
  - apply ret_Ok in H. destruct H as [H _]. inversion H.
  - run_inv H. apply ret_Ok in H. destruct H as [H _]. inversion H; subst o.
    apply matches_true in Hm. destruct Hm as [Hk _].
    pose proof (dispose_entry_live _ _ _ _ _ Hstep Hk) as L. cbn [key] in L.
    rewrite pairs_link, live_pairs_cons. cbn [fst opairs]. rewrite L. lia.
  - run_inv H. apply ret_Ok in H. destruct H as [H _].
    destruct a as [hit0 o0]. cbn [fst snd] in H. inversion H; subst hit0 o.
    specialize (IH _ _ _ Hstep). cbn [opairs].
    rewrite pairs_opairs, pairs_link, !live_pairs_cons, IH. lia.
Qed.

Lemma remove_head_live (t : MapTypeData) (k : ptr) (head : MapNode)
      (w : world) (hit : bool) (head' : MapNode) (w' : world) :
  chain_inv head ->
  remove_head t head k w = Ok ((hit, head'), w') ->
  live_count head' = live_count head - (if hit then 1 else 0).
Proof.
  intros [Hh Ho] H. destruct hit.
  2:{ apply remove_head_miss in H. destruct H as (-> & _). lia. }
  unfold remove_head in H. run_inv H.
  apply lift_Ok in Hstep. destruct Hstep as [Hm ->].
  destruct head as [hk hv nxt]. cbn [key value next] in *. destruct a.
  - apply matches_true in Hm. cbn [key] in Hm. destruct Hm as [Hk _].
    run_inv H. pose proof (dispose_entry_live _ _ _ _ _ Hstep Hk) as L.
    cbn [key] in L. unfold live_count.
    rewrite (entries_nonempty (mkNode hk hv nxt))
      by (unfold is_empty; cbn [key value]; rewrite Hk; reflexivity).
    rewrite pairs_opairs, live_pairs_cons. cbn [fst]. rewrite L.
    destruct nxt as [nx|].
    + run_inv H. apply ret_Ok in H. destruct H as [H _]. inversion H; subst head'.
      unfold overflow_ok in Ho. cbn [overflow_nodes next] in Ho.
      apply Forall_cons in Ho. destruct Ho as [Hnk _].
      rewrite entries_nonempty
        by (unfold is_empty; rewrite Hnk; reflexivity).
      cbn [opairs]. lia.
    + apply ret_Ok in H. destruct H as [H _]. inversion H; subst head'.
      cbn. lia.
  - destruct nxt as [nx|].
    + run_inv H. apply ret_Ok in H. destruct H as [H _].
      destruct a as [hit0 o0]. cbn [fst snd] in H. inversion H; subst hit0 head'.
      assert (Ene : is_null hk && is_null hv = false).
      { destruct (is_null hk && is_null hv) eqn:E; [|reflexivity].
        specialize (Hh E). discriminate Hh. }
      unfold live_count. rewrite !entries_nonempty by exact Ene.
      rewrite pairs_opairs, pairs_link, !live_pairs_cons.
      rewrite (remove_walk_hit_live _ _ _ _ _ _ Hstep). lia.
    + apply ret_Ok in H. destruct H as [H _]. inversion H.
Qed.

Lemma add_head_live (t : MapTypeData) (k v : ptr) (head : MapNode)
      (w : world) (r : Z) (head' : MapNode) (w' : world) :
  head_ok head ->
  (is_empty head = true /\ fill_head t head k v w = Ok ((r, head'), w'))
  \/ (is_empty head = false /\ add_walk t head k v w = Ok ((r, head'), w')) ->
  live_count head' = live_count head + (if r =? 0 then 1 else 0).
Proof.
  intros Hh [[E Hf]|[E Hw]]; unfold live_count.
  - pose proof (fill_head_code _ _ _ _ _ _ _ _ Hf) as [-> | ->]; cbn [Z.eqb].
    + apply fill_head_Ok0 in Hf. destruct Hf as (Lk & _ & -> & _).
      unfold entries at 2. rewrite E. rewrite (Hh E).
      rewrite entries_nonempty
        by (unfold is_empty; cbn [key value]; destruct k; try discriminate Lk;
            reflexivity).
      unfold pairs, chain_nodes. cbn [overflow_nodes next map key value].
      rewrite live_pairs_cons. cbn [fst]. rewrite copy_of_live by exact Lk.
      reflexivity.
    + apply fill_head_fail in Hf. destruct Hf as (_ & [(-> & _)|(-> & _)]);
        unfold entries at 2; rewrite E, (Hh E).
      * unfold is_empty in E. apply andb_true_iff in E. destruct E as [_ Ev].
        apply is_null_Null in Ev. rewrite Ev. reflexivity.
      * reflexivity.
  - pose proof (add_walk_nonempty _ _ _ _ _ _ _ _ Hw E) as E'.
    rewrite !entries_nonempty by assumption.
    destruct (Z.eq_dec r 0) as [->|H0]; [|destruct (Z.eq_dec r 1) as [->|H1]].
    + apply add_walk_Ok0 in Hw. destruct Hw as (Lk & _ & -> & _).
      rewrite live_pairs_app, live_pairs_cons. cbn [fst Z.eqb].
      rewrite copy_of_live by exact Lk. reflexivity.
    + apply add_walk_Ok1 in Hw.
      destruct Hw as (l1 & ek & old & l2 & -> & _ & _ & _ & _ & _ & -> & _).
      rewrite !live_pairs_app, !live_pairs_cons. cbn [fst Z.eqb]. lia.
    + destruct (add_walk_fail _ _ _ _ _ _ _ _ Hw H0 H1) as [-> ->].
      cbn [Z.eqb]. lia.
Qed.

Lemma wrap_sub_l (x y : Z) : wrap (wrap x - y) = wrap (x - y).
Proof. unfold wrap. apply Zminus_mod_idemp_l. Qed.

Lemma stored_insert (m : Map) (t : MapTypeData) (len : Z)
      (i : nat) (head head' : MapNode) :
  buckets m !! i = Some head ->
  stored (mkMap t len (<[i := head']> (buckets m)))
  = stored m - live_count head + live_count head'.
Proof. intros H. unfold stored. cbn [buckets]. apply sum_Z_insert. exact H. Qed.

Lemma stored_new (n : nat) : sum_Z (map live_count (replicate n zero_node)) = 0.
Proof. induction n as [|n IH]; [reflexivity|exact IH]. Qed.

(** In every table reachable through [map_new], [map_add] and
    [map_remove] (failed allocations included) the length field is, modulo
    2^64, the number of entries that own a key block, an entry stored
    twice under the same key counting twice. *)
Theorem reachable_length_counts_entries (m : Map) :
  reachable m -> length m = wrap (stored m).
Proof.
  induction 1 as [t count w m w' Hn|m k v w r m' w' Hr IH Ha|m k w r m' w' Hr IH Hd].
  - unfold map_new in Hn. run_inv Hn.
    destruct a; [|apply ret_Ok in Hn; destruct Hn; discriminate].
    run_inv Hn. destruct a0.
    2:{ run_inv Hn. apply ret_Ok in Hn; destruct Hn; discriminate. }
    apply ret_Ok in Hn. destruct Hn as [Hn _]. inversion Hn; subst m.
    unfold stored. cbn [length buckets]. rewrite stored_new. reflexivity.
  - pose proof (reachable_inv _ Hr) as Hinv.
    apply map_add_Ok in Ha.
    destruct Ha as (h & i & head & head' & _ & _ & Hb & -> & Hcase).
    pose proof (Forall_lookup_1 _ _ _ _ Hinv Hb) as [Hh _].
    rewrite (stored_insert _ _ _ _ _ _ Hb).
    rewrite (add_head_live _ _ _ _ _ _ _ _ Hh Hcase). cbn [length].
    destruct (r =? 0).
    + rewrite IH, wrap_add_l. f_equal. lia.
    + rewrite IH. f_equal. lia.
  - pose proof (reachable_inv _ Hr) as Hinv.
    apply map_remove_Ok in Hd.
    destruct Hd as (h & i & head & hit & head' & _ & _ & Hb & Hrun & Hcase).
    pose proof (Forall_lookup_1 _ _ _ _ Hinv Hb) as Hc.
    pose proof (remove_head_live _ _ _ _ _ _ _ Hc Hrun) as Hl.
    destruct Hcase as [(-> & _ & ->)|(_ & _ & ->)]; [|exact IH].
    rewrite (stored_insert _ _ _ _ _ _ Hb), Hl. cbn [length].
    rewrite IH, wrap_sub_l. f_equal. lia.
Qed.

Lemma reachable_length_counts_entries_witness :
  length (mkMap int_type' 1 [mkNode (int_at 1002 7) (int_at 1003 70) None])
  = wrap (stored (mkMap int_type' 1
                        [mkNode (int_at 1002 7) (int_at 1003 70) None])).
Proof.
  apply reachable_length_counts_entries.
  apply (reach_add (mkMap int_type' 0 [zero_node])
                   (int_at 1 7) (int_at 2 70) (mkWorld 1002 [] []) 0 _
                   (mkWorld 1004 []
                      [CallMemcpy (Live 1002 []) (int_at 1 7) 4;
                       CallMemcpy (Live 1003 []) (int_at 2 70) 4])).
  - apply (reach_new int_type 1 world0 _ (mkWorld 1002 [] [])). reflexivity.
  - reflexivity.
Defined.

(** ** map_free *)

Lemma node_frees_app (l1 l2 : list event) :
  node_frees (l1 ++ l2) = node_frees l1 + node_frees l2.
Proof. unfold node_frees. rewrite map_app. apply sum_Z_app. Qed.

Lemma block_frees_app (l1 l2 : list event) :
  block_frees (l1 ++ l2) = block_frees l1 + block_frees l2.
Proof. unfold block_frees. rewrite map_app. apply sum_Z_app. Qed.

Lemma free_Ok_clean (p : ptr) (w : world) (u : unit) (w' : world) :
  free p w = Ok (u, w') -> dangling p = false.
Proof. destruct p; cbn [free]; [reflexivity|reflexivity|discriminate]. Qed.

Lemma free_clean (p : ptr) (w : world) :
  dangling p = false ->
  free p w = Ok (tt, mkWorld (fresh w) (sched w) (trace w ++ [CallFree p])).
Proof. destruct p; cbn [free dangling]; try discriminate; reflexivity. Qed.

(** The calls [map_free] makes for one node. *)
Lemma free_chain_step (t : MapTypeData) (hk hv : ptr) (nxt : option MapNode)
      (c : Z) (w : world) :
  dangling hk = false -> dangling hv = false ->
  exists evs,
    node_frees evs = (if c >? 0 then 1 else 0)
    /\ block_frees evs = 2
    /\ free_chain t (mkNode hk hv nxt) c w
       = match nxt with
         | Some nx =>
             free_chain t nx (c + 1)
                        (mkWorld (fresh w) (sched w) (trace w ++ evs))
         | None => Ok (tt, mkWorld (fresh w) (sched w) (trace w ++ evs))
         end.
Proof.
  intros Dk Dv.
  exists ((match key_free t with Some f => [CallKeyFree f hk] | None => [] end)
          ++ (match value_free t with Some f => [CallValueFree f hv] | None => [] end)
          ++ [CallFree hk; CallFree hv]
          ++ (if c >? 0 then [CallFreeNode] else [])).
  split; [|split].
  - rewrite !node_frees_app. destruct (key_free t), (value_free t), (c >? 0);
      reflexivity.
  - rewrite !block_frees_app. destruct (key_free t), (value_free t), (c >? 0);
      reflexivity.
  - destruct nxt as [nx|]; cbn [free_chain key value next]; unfold bind;
      destruct (key_free t), (value_free t); cbn [emit ret fresh sched trace];
      rewrite (free_clean hk _ Dk); cbn [fresh sched trace];
      rewrite (free_clean hv _ Dv); cbn [fresh sched trace];
      destruct (c >? 0); cbn [emit ret fresh sched trace app];
      repeat rewrite <- app_assoc; cbn [app]; rewrite ?app_nil_r; reflexivity.
Qed.

Lemma free_chain_Ok_clean (t : MapTypeData) (node : MapNode) :
  forall c w u w',
    free_chain t node c w = Ok (u, w') -> Forall clean (chain_nodes node).
Proof.
  induction node as [hk hv|hk hv nx IH] using MapNode_chain_ind;
    intros c w u w' H; cbn [free_chain key value next] in H; run_inv H;
    apply free_Ok_clean in Hstep1, Hstep2.
  - repeat constructor; assumption.
  - unfold chain_nodes. cbn [overflow_nodes next].
    constructor; [split; assumption|]. eapply IH. exact H.
Qed.

Lemma free_chain_clean (t : MapTypeData) (node : MapNode) :
  forall c w,
    0 <= c ->
    Forall clean (chain_nodes node) ->
    exists evs,
      free_chain t node c w
      = Ok (tt, mkWorld (fresh w) (sched w) (trace w ++ evs))
      /\ node_frees evs = (if c >? 0 then 1 else 0) + overflow_count node
      /\ block_frees evs = 2 * (1 + overflow_count node).
Proof.
  induction node as [hk hv|hk hv nx IH] using MapNode_chain_ind;
    intros c w Hc Hcl; unfold chain_nodes in Hcl;
    cbn [overflow_nodes next] in Hcl; apply Forall_cons in Hcl;
    destruct Hcl as [[Dk Dv] Hrest]; cbn [key value] in *.
  - destruct (free_chain_step t hk hv None c w Dk Dv) as (evs & Hn & Hb & ->).
    exists evs. unfold overflow_count. cbn. repeat split; lia.
  - destruct (free_chain_step t hk hv (Some nx) c w Dk Dv) as (evs & Hn & Hb & ->).
    destruct (IH (c + 1) (mkWorld (fresh w) (sched w) (trace w ++ evs))
                 ltac:(lia) Hrest) as (evs' & -> & Hn' & Hb').
    exists (evs ++ evs'). cbn [fresh sched trace]. rewrite <- app_assoc.
    split; [reflexivity|].
    rewrite node_frees_app, block_frees_app, Hn, Hn', Hb, Hb'.
    replace (c + 1 >? 0) with true by (symmetry; apply Z.gtb_lt; lia).
    unfold overflow_count. cbn [overflow_nodes next]. rewrite !length_cons.
    split; lia.
Qed.

Lemma for_buckets_free_Ok (t : MapTypeData) (bs : list MapNode) :
  forall w u w',
    for_buckets (fun _ b => free_chain t b 0) bs tt w = Ok (u, w') ->
    Forall (fun b => Forall clean (chain_nodes b)) bs.
Proof.
  induction bs as [|b bs IH]; intros w u w' H; [constructor|].
  cbn [for_buckets] in H. run_inv H.
  constructor; [eapply free_chain_Ok_clean; eauto|]. destruct a. eapply IH; eauto.
Qed.

Lemma for_buckets_free_clean (t : MapTypeData) (bs : list MapNode) :
  forall w,
    Forall (fun b => Forall clean (chain_nodes b)) bs ->
    exists evs,
      for_buckets (fun _ b => free_chain t b 0) bs tt w
      = Ok (tt, mkWorld (fresh w) (sched w) (trace w ++ evs))
      /\ node_frees evs = sum_Z (map overflow_count bs)
      /\ block_frees evs
         = 2 * sum_Z (map (fun b => 1 + overflow_count b) bs).
Proof.
  induction bs as [|b bs IH]; intros w Hcl.
  - exists []. rewrite app_nil_r. destruct w. repeat split; reflexivity.
  - apply Forall_cons in Hcl. destruct Hcl as [Hb Hrest].
    destruct (free_chain_clean t b 0 w ltac:(lia) Hb) as (evs & He & Hn & Hbl).
    destruct (IH (mkWorld (fresh w) (sched w) (trace w ++ evs)) Hrest)
      as (evs' & He' & Hn' & Hbl').
    exists (evs ++ evs'). cbn [for_buckets]. unfold bind. rewrite He, He'.
    cbn [fresh sched trace]. rewrite <- app_assoc. split; [reflexivity|].
    rewrite node_frees_app, block_frees_app, Hn, Hn', Hbl, Hbl'.
    cbn [map]. unfold sum_Z. cbn [fold_right]. cbn [Z.gtb Z.compare]. split; lia.
Qed.

Lemma free_chain_fault (t : MapTypeData) (node : MapNode) :
  forall c w e, free_chain t node c w = Fault e -> e = DoubleFree.
Proof.
  induction node as [hk hv|hk hv nx IH] using MapNode_chain_ind;
    intros c w e H; cbn [free_chain key value next] in H; unfold bind in H;
    destruct (key_free t), (value_free t); cbn [emit ret] in H;
    destruct hk, hv; cbn [free emit crash] in H;
    try (inversion H; reflexivity);
    destruct (c >? 0); cbn [emit ret] in H;
    try discriminate H; try (inversion H; reflexivity);
    eapply IH; exact H.
Qed.

Lemma for_buckets_free_fault (t : MapTypeData) (bs : list MapNode) :
  forall w e,
    for_buckets (fun _ b => free_chain t b 0) bs tt w = Fault e -> e = DoubleFree.
Proof.
  induction bs as [|b bs IH]; intros w e H; [discriminate H|].
  cbn [for_buckets] in H. unfold bind in H.
  destruct (free_chain t b 0 w) as [[[] w1]|e1] eqn:Hc.
  - eapply IH. exact H.
  - inversion H; subst. eapply free_chain_fault. exact Hc.
Qed.

(** [map_free] returns exactly when no key or value pointer in the table
    dangles; otherwise it passes an already freed block to [free] a second
    time, and that is the only way it can go wrong. *)
Theorem map_free_returns_iff_clean (m : Map) (w : world) :
  ((exists w', map_free m w = Ok (tt, w'))
   <-> Forall (fun b => Forall clean (chain_nodes b)) (buckets m))
  /\ (forall e, map_free m w = Fault e -> e = DoubleFree).
Proof.
  split; [split|].
  - intros [w' H]. unfold map_free in H. run_inv H.
    eapply for_buckets_free_Ok. exact Hstep.
  - intros Hcl.
    destruct (for_buckets_free_clean (type m) (buckets m) w Hcl) as (evs & He & _).
    unfold map_free, bind. rewrite He. cbn [emit]. eauto.
  - intros e H. unfold map_free in H. unfold bind at 1 in H.
    destruct (for_buckets _ (buckets m) tt w) as [[[] w1]|e1] eqn:Hf.
    + discriminate H.
    + inversion H; subst. eapply for_buckets_free_fault. exact Hf.
Qed.

(** When it returns, [map_free] has called [free] on the key pointer and
    on the value pointer of every node (null pointers of unused heads
    included), has released every overflow node once and no bucket head
    on its own, and has released the bucket array and the table struct
    last.  The number of nodes it releases is the number
    [map_count_collisions] reports (modulo 2^64). *)
Theorem map_free_releases_table (m : Map) (w : world) :
  Forall (fun b => Forall clean (chain_nodes b)) (buckets m) ->
  exists evs,
    map_free m w
    = Ok (tt, mkWorld (fresh w) (sched w)
                      (trace w ++ evs ++ [CallFreeBuckets; CallFreeMap]))
    /\ node_frees evs = sum_Z (map overflow_count (buckets m))
    /\ block_frees evs = 2 * sum_Z (map (fun b => 1 + overflow_count b) (buckets m))
    /\ map_count_collisions m = wrap (node_frees evs).
Proof.
  intros Hcl.
  destruct (for_buckets_free_clean (type m) (buckets m) w Hcl)
    as (evs & He & Hn & Hb).
  exists evs. unfold map_free, bind. rewrite He.
  unfold emit. cbn [fresh sched trace]. repeat rewrite <- app_assoc.
  split; [reflexivity|]. split; [exact Hn|]. split; [exact Hb|].
  unfold map_count_collisions.
  rewrite fold_count_bucket by (unfold size_max; lia).
  rewrite Hn. reflexivity.
Qed.

Lemma map_free_releases_table_witness :
  exists evs,
    map_free two_bucket_table world0
    = Ok (tt, mkWorld 1000 [] ([] ++ evs ++ [CallFreeBuckets; CallFreeMap]))
    /\ node_frees evs = 2
    /\ block_frees evs = 8
    /\ map_count_collisions two_bucket_table = wrap (node_frees evs).
Proof.
  apply (map_free_releases_table two_bucket_table world0).
  repeat constructor.
Defined.

Lemma map_add_fail_changed (m : Map) (k v : ptr) (w : world) (m' : Map) (w' : world) :
  map_add m k v w = Ok ((-1, m'), w') -> m' <> m ->
  exists b, In b (buckets m') /\ dangling (key b) = true.
Proof.
  intros H Hne. apply map_add_Ok in H.
  destruct H as (h & i & head & head' & Hh & Hi & Hb & -> & [[E Hf]|[E Hw]]);
    cbn [Z.eqb] in *.
  - apply fill_head_fail in Hf. destruct Hf as (_ & [(-> & _)|(-> & _)]).
    + exfalso. apply Hne.
      unfold is_empty in E. apply andb_true_iff in E. destruct E as [Ek Ev].
      apply is_null_Null in Ek, Ev. destruct head as [hk hv nxt].
      cbn [key value next] in *. subst hk hv. apply map_rebuild. exact Hb.
    + exists (mkNode (Freed (fresh w)) Null (next head)).
      split; [|reflexivity]. cbn [buckets].
      apply list_elem_of_In. eapply list_elem_of_lookup_2.
      apply list_lookup_insert_eq. apply lookup_lt_Some in Hb. exact Hb.
  - exfalso. apply Hne.
    assert (Hn : head' = head)
      by (apply (add_walk_fail _ _ _ _ _ _ _ _ Hw); discriminate).
    subst head'. apply map_rebuild. exact Hb.
Qed.

(** Failed insert, then release.  When a [map_add] that returned -1 has
    changed the table (the value block of an empty bucket could not be
    allocated), [map_free] on that table frees the key block a second
    time. *)
Theorem map_add_failure_then_map_free
        (m : Map) (k v : ptr) (w : world) (m' : Map) (w' w2 : world) :
  map_add m k v w = Ok ((-1, m'), w') -> m' <> m ->
  map_free m' w2 = Fault DoubleFree.
Proof.
  intros H Hne. destruct (map_add_fail_changed _ _ _ _ _ _ H Hne) as (b & Hin & Hd).
  destruct (map_free m' w2) as [[[] w3]|e] eqn:Hf.
  - exfalso.
    assert (Hcl : Forall (fun b => Forall clean (chain_nodes b)) (buckets m')).
    { unfold map_free in Hf. run_inv Hf. eapply for_buckets_free_Ok. exact Hstep. }
    rewrite Forall_forall in Hcl. apply list_elem_of_In in Hin.
    specialize (Hcl b Hin). unfold chain_nodes in Hcl.
    apply Forall_cons in Hcl. destruct Hcl as [[Hk _] _]. congruence.
  - f_equal. unfold map_free in Hf. unfold bind at 1 in Hf.
    destruct (for_buckets _ (buckets m') tt w2) as [[[] w1]|e1] eqn:Hfb.
    + discriminate Hf.
    + inversion Hf; subst. eapply for_buckets_free_fault. exact Hfb.
Qed.

Lemma map_add_failure_then_map_free_witness :
  map_free (mkMap int_type' 0 [mkNode (Freed 1002) Null None]) world0
  = Fault DoubleFree.
Proof.
  apply (map_add_failure_then_map_free
           (mkMap int_type' 0 [zero_node]) (int_at 1 7) (int_at 2 70)
           (mkWorld 1002 [true; false] [])
           _ (mkWorld 1003 [] [CallFree (Live 1002 [])])).
  - reflexivity.
  - intros E. discriminate E.
Defined.

(** ** map_default_hash_str *)

Lemma hash_str_loop_poly (str : list Z) :
  forall h p,
    0 <= h < str_m -> 0 <= p < str_m ->
    Forall (fun c => 96 <= c) str ->
    hash_str_loop str h p = (h + p * str_poly str) mod str_m.
Proof.
  induction str as [|c str IH]; intros h p Hh Hp Hall.
  - cbn [hash_str_loop str_poly]. rewrite Z.mul_0_r, Z.add_0_r.
    symmetry. apply Z.mod_small. exact Hh.
  - apply Forall_cons in Hall. destruct Hall as [Hc Hrest].
    cbn [hash_str_loop str_poly].
    assert (Hm : 0 < str_m) by reflexivity.
    rewrite !Z.rem_mod_nonneg by (unfold str_p, str_m in *; nia).
    rewrite IH; try (apply Z.mod_pos_bound; exact Hm); try exact Hrest.
    rewrite Zplus_mod_idemp_l.
    rewrite <- Zplus_mod_idemp_r, Zmult_mod_idemp_l, Zplus_mod_idemp_r.
    f_equal. ring.
Qed.

(** On a string of characters from ['`'] upwards (the lower-case letters
    among them) [map_default_hash_str] is the polynomial hash
    [sum (str[i] - 'a' + 1) * 31^i] reduced modulo 1000000009, a value
    below that modulus. *)
Theorem map_default_hash_str_polynomial (str : list Z) :
  Forall (fun c => 96 <= c <= 255) str ->
  map_default_hash_str str = str_poly str mod str_m
  /\ 0 <= map_default_hash_str str < str_m.
Proof.
  intros Hall0.
  assert (Hall : Forall (fun c => 96 <= c) str)
    by (eapply Forall_impl; [exact Hall0|]; cbn; intros; lia).
  unfold map_default_hash_str.
  rewrite hash_str_loop_poly; try exact Hall; try (unfold str_m; lia).
  rewrite Z.add_0_l, Z.mul_1_l.
  pose proof (Z.mod_pos_bound (str_poly str) str_m ltac:(reflexivity)) as Hb.
  rewrite wrap_small by (unfold size_max, str_m in *; lia).
  split; [reflexivity|exact Hb].
Qed.

Lemma map_default_hash_str_polynomial_witness :
  map_default_hash_str [97; 98; 99] = 2946 /\ 0 <= 2946 < str_m.
Proof.
  refine (map_default_hash_str_polynomial [97; 98; 99] _).
  repeat constructor; lia.
Defined.

(** On a one-character string whose character is below ['`'] (a digit or
    an upper-case letter, say) the remainder is negative and the value
    returned as [size_t] lies just below 2^64, not below the modulus. *)
Theorem map_default_hash_str_negative (c : Z) :
  -128 <= c < 96 ->
  map_default_hash_str [c] = size_max - (96 - c).
Proof.
  intros Hc. unfold map_default_hash_str. cbn [hash_str_loop].
  rewrite Z.add_0_l, Z.mul_1_r.
  replace (c - 97 + 1) with (- (96 - c)) by lia.
  rewrite Z.rem_opp_l by discriminate.
  rewrite Z.rem_small by (unfold str_m; lia).
  unfold wrap.
  rewrite <- (Z_mod_plus_full (- (96 - c)) 1 size_max).
  rewrite Z.mod_small by (unfold size_max; lia). lia.
Qed.

Lemma map_default_hash_str_negative_witness :
  map_default_hash_str [65] = size_max - 31.
Proof. apply (map_default_hash_str_negative 65). lia. Defined.

(** ** What map_get can return *)

Lemma get_walk_stored (t : MapTypeData) (k : ptr) (node : MapNode) :
  forall p,
    get_walk t node k = Ok p -> p <> Null ->
    exists n, In n (chain_nodes node) /\ value n = p
              /\ call_cmp t (key n) k = Ok 0.
Proof.
  induction node as [hk hv|hk hv nx IH] using MapNode_chain_ind;
    intros p H Hp; cbn [get_walk key value next] in H;
    destruct (is_null hk && is_null hv); try (inversion H; congruence);
    destruct (call_cmp t hk k) as [c|e] eqn:Hc; try discriminate H;
    destruct (c =? 0) eqn:E.
  - apply Z.eqb_eq in E. subst c. inversion H; subst.
    eexists. split; [left; reflexivity|]. auto.
  - inversion H; congruence.
  - apply Z.eqb_eq in E. subst c. inversion H; subst.
    eexists. split; [left; reflexivity|]. auto.
  - destruct (IH p H Hp) as (n & Hin & Hv & Hcmp).
    exists n. split; [right; exact Hin|]. auto.
Qed.

(** [map_get] never invents a pointer: a non-null result is the value
    pointer of a node of the key's bucket whose key the comparison
    function found equal to the key. *)
Theorem map_get_returns_stored_value (m : Map) (k p : ptr) :
  map_get m k = Ok p -> p <> Null ->
  exists h i head n,
    call_hash (type m) k = Ok h /\ bucket_index m h = Ok i
    /\ buckets m !! Z.to_nat i = Some head
    /\ In n (chain_nodes head) /\ value n = p
    /\ call_cmp (type m) (key n) k = Ok 0.
Proof.
  unfold map_get. intros H Hp.
  destruct (call_hash (type m) k) as [h|e] eqn:Hh; [|discriminate].
  destruct (bucket_index m h) as [i|e] eqn:Hi; [|discriminate].
  destruct (buckets m !! Z.to_nat i) as [head|] eqn:Hb; [|discriminate].
  destruct (get_walk_stored _ _ _ _ H Hp) as (n & Hin & Hv & Hc).
  exists h, i, head, n. repeat split; auto.
Qed.

Lemma map_get_returns_stored_value_witness :
  exists h i head n,
    call_hash (type chain_7_8) (int_at 1 8) = Ok h
    /\ bucket_index chain_7_8 h = Ok i
    /\ buckets chain_7_8 !! Z.to_nat i = Some head
    /\ In n (chain_nodes head) /\ value n = int_at 1006 80
    /\ call_cmp (type chain_7_8) (key n) (int_at 1 8) = Ok 0.
Proof.
  apply (map_get_returns_stored_value chain_7_8 (int_at 1 8) (int_at 1006 80)).
  - reflexivity.
  - discriminate.
Defined.

Lemma map_default_cmp_zero (k1 k2 : ptr) :
  map_default_cmp k1 k2 = Ok 0 -> addr_of k1 = addr_of k2.
Proof.
  unfold map_default_cmp.
  destruct (addr_of k1 <? addr_of k2) eqn:L; [discriminate|].
  destruct (addr_of k1 >? addr_of k2) eqn:G; [discriminate|].
  intros _. apply Z.ltb_ge in L. rewrite Z.gtb_ltb in G. apply Z.ltb_ge in G. lia.
Qed.

(** With the default comparison function a lookup finds a key only
    through the address of the stored key block: a non-null result of
    [map_get] comes from a node whose key block sits at the very address
    passed as the key, whatever the bytes behind the two pointers are. *)
Theorem map_get_default_cmp_same_address (m : Map) (k p : ptr) :
  key_cmp (type m) = Some map_default_cmp ->
  map_get m k = Ok p -> p <> Null ->
  exists b n,
    In b (buckets m) /\ In n (chain_nodes b) /\ value n = p
    /\ addr_of (key n) = addr_of k.
Proof.
  intros Hcmp H Hp. unfold map_get in H.
  destruct (call_hash (type m) k) as [h|e]; [|discriminate].
  destruct (bucket_index m h) as [i|e]; [|discriminate].
  destruct (buckets m !! Z.to_nat i) as [head|] eqn:Hb; [|discriminate].
  destruct (get_walk_stored _ _ _ _ H Hp) as (n & Hin & Hv & Hc).
  exists head, n. split.
  { apply list_elem_of_In. eapply list_elem_of_lookup_2. exact Hb. }
  split; [exact Hin|]. split; [exact Hv|].
  unfold call_cmp in Hc. rewrite Hcmp in Hc. apply map_default_cmp_zero. exact Hc.
Qed.

Lemma map_get_default_cmp_same_address_witness :
  exists b n,
    In b [mkNode (Live 1002 [7; 0; 0; 0; 0; 0; 0; 0]) (int_at 1003 70) None]
    /\ In n (chain_nodes b) /\ value n = int_at 1003 70
    /\ addr_of (key n) = addr_of (Live 1002 [7; 0; 0; 0; 0; 0; 0; 0]).
Proof.
  apply (map_get_default_cmp_same_address
           (mkMap (mkType 8 4 (Some map_default_hash) (Some map_default_cmp)
                          (Some map_default_free) (Some map_default_free))
                  1 [mkNode (Live 1002 [7; 0; 0; 0; 0; 0; 0; 0])
                            (int_at 1003 70) None])
           (Live 1002 [7; 0; 0; 0; 0; 0; 0; 0]) (int_at 1003 70)).
  - reflexivity.
  - reflexivity.
  - discriminate.
Defined.

(** ** What map_optimize returns *)

Lemma map_new_Some (t : MapTypeData) (count : Z) (w : world) (m : Map) (w' : world) :
  map_new t count w = Ok (Some m, w') ->
  m = mkMap (mkType (key_size t) (value_size t)
                    (or_default (key_hash t) map_default_hash)
                    (or_default (key_cmp t) map_default_cmp)
                    (or_default (key_free t) map_default_free)
                    (or_default (value_free t) map_default_free))
            0 (replicate (Z.to_nat count) zero_node).
Proof.
  unfold map_new. intros H. run_inv H.
  destruct a; [|apply ret_Ok in H; destruct H; discriminate].
  run_inv H. destruct a0.
  - apply ret_Ok in H. destruct H as [H _]. inversion H. reflexivity.
  - run_inv H. apply ret_Ok in H; destruct H; discriminate.
Qed.

Lemma map_add_frame (m : Map) (k v : ptr) (w : world) (r : Z) (m' : Map) (w' : world) :
  map_add m k v w = Ok ((r, m'), w') ->
  type m' = type m /\ buckets_count m' = buckets_count m.
Proof.
  intros H. apply map_add_Ok in H.
  destruct H as (h & i & head & head' & _ & _ & _ & -> & _).
  split; [reflexivity|apply buckets_count_insert].
Qed.

Lemma readd_chain_reach (node : MapNode) :
  forall nm w o w',
    readd_chain (Some nm) node w = Ok (o, w') ->
    reachable nm ->
    exists nm', o = Some nm' /\ reachable nm'
                /\ type nm' = type nm /\ buckets_count nm' = buckets_count nm.
Proof.
  induction node as [hk hv|hk hv nx IH] using MapNode_chain_ind;
    intros nm w o w' H Hr; cbn [readd_chain next key value] in H; run_inv H;
    destruct a as [r nm1]; cbn [snd] in H;
    pose proof (reach_add _ _ _ _ _ _ _ Hr Hstep) as Hr1;
    destruct (map_add_frame _ _ _ _ _ _ _ Hstep) as [Ht Hc].
  - apply ret_Ok in H. destruct H as [H _]. inversion H; subst o.
    exists nm1. auto.
  - destruct (IH _ _ _ _ H Hr1) as (nm' & -> & Hr' & Ht' & Hc').
    exists nm'. repeat split; auto; congruence.
Qed.

Lemma for_buckets_readd_reach (bs : list MapNode) :
  forall nm w o w',
    for_buckets readd_chain bs (Some nm) w = Ok (o, w') ->
    reachable nm ->
    exists nm', o = Some nm' /\ reachable nm'
                /\ type nm' = type nm /\ buckets_count nm' = buckets_count nm.
Proof.
  induction bs as [|b bs IH]; intros nm w o w' H Hr; cbn [for_buckets] in H.
  - apply ret_Ok in H. destruct H as [H _]. inversion H; subst o.
    exists nm. auto.
  - run_inv H.
    destruct (readd_chain_reach _ _ _ _ _ Hstep Hr) as (nm1 & -> & Hr1 & Ht1 & Hc1).
    destruct (IH _ _ _ _ H Hr1) as (nm' & -> & Hr' & Ht' & Hc').
    exists nm'. repeat split; auto; congruence.
Qed.

(** A table that [map_optimize] returns is one the interface can produce
    (so it has the shape and the length of every reachable table); it has
    floor(4 * length / 3) buckets and the sizes, hash and comparison
    functions of the old table, the defaults standing in for null function
    pointers.  [map_optimize] returns the null pointer only when the old
    table had no bucket at all; with buckets and a failed [map_new] it
    passes the null table to [map_add]. *)
Theorem map_optimize_result (m : Map) (w : world) (o : option Map) (w' : world) :
  map_optimize m w = Ok (o, w') ->
  match o with
  | Some m' =>
      reachable m'
      /\ buckets_count m' = Z.max 0 (4 * length m / 3)
      /\ key_size (type m') = key_size (type m)
      /\ value_size (type m') = value_size (type m)
      /\ key_hash (type m') = or_default (key_hash (type m)) map_default_hash
      /\ key_cmp (type m') = or_default (key_cmp (type m)) map_default_cmp
  | None => buckets m = []
  end.
Proof.
  unfold map_optimize. intros H. run_inv H.
  apply ret_Ok in H. destruct H as [-> _].
  destruct a as [nm|].
  - pose proof (reach_new _ _ _ _ _ Hstep) as Hr.
    destruct (for_buckets_readd_reach _ _ _ _ _ Hstep0 Hr)
      as (m' & -> & Hr' & Ht & Hc).
    apply map_new_Some in Hstep. subst nm.
    rewrite Ht, Hc. cbn [type key_size value_size key_hash key_cmp].
    repeat split; auto.
    unfold buckets_count, new_buckets_count. cbn [buckets].
    rewrite length_replicate. lia.
  - destruct (buckets m) as [|b bs]; [destruct a0; [|reflexivity]|].
    + cbn [for_buckets] in Hstep0. apply ret_Ok in Hstep0.
      destruct Hstep0 as [E _]. discriminate E.
    + cbn [for_buckets] in Hstep0. run_inv Hstep0.
      destruct b as [hk hv [nx|]]; discriminate Hstep2.
Qed.

Lemma map_optimize_result_witness :
  reachable (mkMap int_type' 1 [mkNode (int_at 2002 7) (int_at 2003 70) None])
  /\ buckets_count
       (mkMap int_type' 1 [mkNode (int_at 2002 7) (int_at 2003 70) None])
     = Z.max 0 (4 * 1 / 3).
Proof.
  pose (m := mkMap int_type' 1 [mkNode (int_at 1002 7) (int_at 1003 70) None]).
  pose (m' := mkMap int_type' 1 [mkNode (int_at 2002 7) (int_at 2003 70) None]).
  pose (w' := mkWorld 2004 []
                [CallMemcpy (Live 2002 []) (int_at 1002 7) 4;
                 CallMemcpy (Live 2003 []) (int_at 1003 70) 4;
                 CallFree (int_at 1002 7); CallFree (int_at 1003 70);
                 CallFreeBuckets; CallFreeMap]).
  destruct (map_optimize_result m (mkWorld 2000 [] []) (Some m') w' eq_refl)
    as (Hr & Hc & _).
  split; [exact Hr|exact Hc].
Defined.

(** ** map_add and the other keys *)

Lemma add_head_entries (t : MapTypeData) (k v : ptr) (head : MapNode)
      (w : world) (r : Z) (head' : MapNode) (w' : world) :
  head_ok head ->
  (is_empty head = true /\ fill_head t head k v w = Ok ((r, head'), w'))
  \/ (is_empty head = false /\ add_walk t head k v w = Ok ((r, head'), w')) ->
  (r = 0 ->
   exists a b, entries head'
               = entries head ++ [(copy_of a k (key_size t),
                                   copy_of b v (value_size t))])
  /\ (r = 1 ->
      exists l1 ek old new l2,
        entries head = l1 ++ (ek, old) :: l2
        /\ entries head' = l1 ++ (ek, new) :: l2
        /\ call_cmp t ek k = Ok 0).
Proof.
  intros Hh [[E Hf]|[E Hw]]; split; intros ->.
  - apply fill_head_Ok0 in Hf. destruct Hf as (Lk & _ & -> & _).
    exists (fresh w), (fresh w + 1).
    unfold entries. rewrite E, (Hh E). unfold is_empty. cbn [key value].
    destruct k; try discriminate Lk. reflexivity.
  - apply fill_head_code in Hf. destruct Hf; discriminate.
  - pose proof (add_walk_nonempty _ _ _ _ _ _ _ _ Hw E) as E'.
    apply add_walk_Ok0 in Hw. destruct Hw as (_ & _ & Hp & _).
    exists (fresh w + 1), (fresh w + 2).
    rewrite (entries_nonempty _ E), (entries_nonempty _ E'). exact Hp.
  - pose proof (add_walk_nonempty _ _ _ _ _ _ _ _ Hw E) as E'.
    apply add_walk_Ok1 in Hw.
    destruct Hw as (l1 & ek & old & l2 & Hp & _ & _ & Hc & _ & _ & Hp' & _).
    rewrite (entries_nonempty _ E), (entries_nonempty _ E').
    exists l1, ek, old, (copy_of (addr_of old) v (value_size t)), l2. auto.
Qed.

(** Insert, then look up another key.  After a [map_add] that returned 0
    or 1 for a key, the lookup of a key that the comparison function tells
    apart from every copy of the inserted key, and from every key block
    that compares equal to the inserted key, answers as it did before. *)
Theorem map_add_keeps_other_keys
        (m : Map) (k v k' : ptr) (w : world) (r : Z) (m' : Map) (w' : world) :
  Forall chain_inv (buckets m) ->
  (forall a, differs (type m) k' (copy_of a k (key_size (type m)), Null)) ->
  (forall p, call_cmp (type m) p k = Ok 0 -> differs (type m) k' (p, Null)) ->
  map_add m k v w = Ok ((r, m'), w') ->
  r = 0 \/ r = 1 ->
  map_get m' k' = map_get m k'.
Proof.
  intros Hinv Hcopy Heq H Hr.
  pose proof (map_add_inv _ _ _ _ _ _ _ H Hinv) as Hinv'.
  apply map_add_Ok in H.
  destruct H as (h & i & head & head' & Hh & Hi & Hb & -> & Hcase).
  pose proof (Forall_lookup_1 _ _ _ _ Hinv Hb) as [Hhead Ho].
  assert (Hlt : (Z.to_nat i < List.length (buckets m))%nat)
    by (apply lookup_lt_Some in Hb; exact Hb).
  assert (Hb2 : <[Z.to_nat i := head']> (buckets m) !! Z.to_nat i = Some head')
    by (apply list_lookup_insert_eq; exact Hlt).
  pose proof (Forall_lookup_1 _ _ _ _ Hinv' Hb2) as [_ Ho'].
  destruct (add_head_entries _ _ _ _ _ _ _ _ Hhead Hcase) as [H0 H1].
  unfold map_get. cbn [type buckets].
  destruct (call_hash (type m) k') as [h'|e]; [|reflexivity].
  rewrite bucket_index_insert.
  destruct (bucket_index m h') as [i'|e]; [|reflexivity].
  destruct (decide (Z.to_nat i = Z.to_nat i')) as [Ei|Ei].
  2:{ rewrite list_lookup_insert_ne by exact Ei. reflexivity. }
  rewrite <- Ei, Hb, Hb2. rewrite !get_walk_entries by assumption.
  destruct Hr as [-> | ->].
  - destruct (H0 eq_refl) as (a & b & ->).
    rewrite <- (app_nil_r (entries head)) at 2.
    apply find_entry_without. destruct (Hcopy a) as (c & Hc & Hne).
    exists c. auto.
  - destruct (H1 eq_refl) as (l1 & ek & old & new & l2 & -> & -> & Hc).
    destruct (Heq ek Hc) as (c & Hc' & Hne).
    rewrite !find_entry_without by (exists c; auto). reflexivity.
Qed.

Lemma int_cmp_apart (p : ptr) (x y : Z) :
  x <> y ->
  deref_int (int_at 1 x) = Ok x -> deref_int (int_at 1 y) = Ok y ->
  call_cmp int_type' p (int_at 1 x) = Ok 0 ->
  differs int_type' (int_at 1 y) (p, Null).
Proof.
  intros Hxy Dx Dy. unfold differs, call_cmp. cbn [key_cmp int_type' fst].
  unfold int_cmp. destruct (deref_int p) as [u|e]; [|discriminate].
  rewrite Dx, Dy. intros H. inversion H. exists (u - y). split; [reflexivity|lia].
Qed.

Lemma map_add_keeps_other_keys_witness :
  map_get (mkMap int_type' 3
             [mkNode (int_at 1002 7) (int_at 1003 70)
                (Some (mkNode (int_at 1005 8) (int_at 1006 80)
                   (Some (mkNode (int_at 2001 9) (int_at 2002 90) None))))])
          (int_at 1 8)
  = map_get chain_7_8 (int_at 1 8).
Proof.
  refine (map_add_keeps_other_keys
            chain_7_8 (int_at 1 9) (int_at 2 90) (int_at 1 8)
            (mkWorld 2000 [] []) 0 _
            (mkWorld 2003 []
               [CallMemcpy (Live 2001 []) (int_at 1 9) 4;
                CallMemcpy (Live 2002 []) (int_at 2 90) 4])
            _ _ _ eq_refl _).
  - repeat constructor. intros E. discriminate E.
  - intros a. exists 1. split; [reflexivity|discriminate].
  - intros p. apply int_cmp_apart; [discriminate|reflexivity|reflexivity].
  - left. reflexivity.
Defined.

(** Remove, then look up.  When the removed key is stored once in its
    bucket (whenever an entry compares equal to it, every other entry of
    the bucket compares different), [map_get] of that key after a
    [map_remove] that returned 0 answers with the null pointer. *)
Theorem map_remove_then_get
        (m : Map) (k : ptr) (w : world) (m' : Map) (w' : world)
        (h i : Z) (head : MapNode) :
  Forall chain_inv (buckets m) ->
  call_hash (type m) k = Ok h ->
  bucket_index m h = Ok i ->
  buckets m !! Z.to_nat i = Some head ->
  (forall l1 e l2,
      entries head = l1 ++ e :: l2 ->
      call_cmp (type m) (fst e) k = Ok 0 ->
      Forall (differs (type m) k) (l1 ++ l2)) ->
  map_remove m k w = Ok ((0, m'), w') ->
  map_get m' k = Ok Null.
Proof.
  intros Hinv Hh Hi Hb Huniq H.
  pose proof (map_remove_inv _ _ _ _ _ _ H Hinv) as Hinv'.
  apply map_remove_Ok in H.
  destruct H as (h' & i' & head0 & hit & head' & Hh' & Hi' & Hb' & Hr & Hcase).
  rewrite Hh in Hh'. inversion Hh'; subst h'.
  rewrite Hi in Hi'. inversion Hi'; subst i'.
  rewrite Hb in Hb'. inversion Hb'; subst head0.
  destruct Hcase as [(-> & _ & ->)|(_ & E & _)]; [|discriminate E].
  pose proof (Forall_lookup_1 _ _ _ _ Hinv Hb) as Hc.
  destruct (remove_head_hit _ _ _ _ _ _ Hc Hr)
    as (l1 & ek & ev & l2 & kf & vf & He & _ & Hcmp & He' & _).
  assert (Hlt : (Z.to_nat i < List.length (buckets m))%nat)
    by (apply lookup_lt_Some in Hb; exact Hb).
  assert (Hb2 : <[Z.to_nat i := head']> (buckets m) !! Z.to_nat i = Some head')
    by (apply list_lookup_insert_eq; exact Hlt).
  pose proof (Forall_lookup_1 _ _ _ _ Hinv' Hb2) as [_ Ho'].
  rewrite (map_get_entries _ k h i head'); cbn [type buckets]; auto.
  - rewrite He'. rewrite <- (app_nil_r (l1 ++ l2)).
    rewrite find_entry_skip; [reflexivity|].
    apply (Huniq l1 (ek, ev) l2 He Hcmp).
  - rewrite bucket_index_insert. exact Hi.
Qed.

Lemma map_remove_then_get_witness :
  map_get (mkMap int_type' 1 [mkNode (int_at 1002 7) (int_at 1003 70) None])
          (int_at 1 8)
  = Ok Null.
Proof.
  refine (map_remove_then_get
            chain_7_8 (int_at 1 8) world0 _
            (mkWorld 1000 []
               [CallKeyFree map_default_free (int_at 1005 8);
                CallValueFree map_default_free (int_at 1006 80);
                CallFree (int_at 1005 8); CallFree (int_at 1006 80);
                CallFreeNode])
            8 0 _ _ eq_refl eq_refl eq_refl _ eq_refl).
  - repeat constructor. intros E. discriminate E.
  - intros l1 e l2 He Hc.
    destruct l1 as [|a [|b [|c l1]]]; inversion He; subst.
    + discriminate Hc.
    + repeat constructor. exists (-1). split; [reflexivity|discriminate].
Defined.
